(** * Toast API specification server: a shallow embedding of [server.py]

    The development follows the source file top to bottom:

    - the values that [yaml.safe_load] produces and that the handlers walk
      (mappings in document order, sequences, scalars);
    - the Python string primitives the handlers use ([str], [repr], [lower],
      [upper], [in], [join]);
    - [json.dumps (..., indent=2)] and a reader for the text it writes;
    - the catalog [TOAST_SPECS], the cache [specs_cache] and
      [fetch_yaml_spec], as a state-and-exception monad over an explicit
      network and parser;
    - the five branches of [handle_call_tool];
    - further on, the tools listed by [handle_list_tools].

    Text is modelled by [string]: a character is a code point below 256.
    Case conversion acts on the ASCII letters only.  Floating-point scalars,
    dates and binary scalars of YAML are not part of the value type. *)

From Stdlib Require Import ZArith Ascii String List Bool Lia.
From Stdlib Require Import DecimalString DecimalZ DecimalFacts DecimalPos.
From stdpp Require Import gmap strings list fin_maps.

Local Open Scope Z_scope.

(** String concatenation reduces on a literal prefix. *)
#[local] Arguments String.append !_ _ /.

(** ** Values *)

(** Scalars; they are also the keys a YAML mapping can have. *)
Inductive scalar : Type :=
| SNone
| SBool (b : bool)
| SInt (z : Z)
| SStr (s : string).

(** A parsed document.  A [dict] keeps insertion order, so a mapping is the
    list of its items in document order. *)
#[warnings="-register-all"]
Inductive value : Type :=
| VScalar (s : scalar)
| VList (items : list value)
| VDict (items : list (scalar * value)).

Definition VStr (s : string) : value := VScalar (SStr s).
Definition VInt (z : Z) : value := VScalar (SInt z).
Definition VNone : value := VScalar SNone.

(** [isinstance(v, dict)], [isinstance(v, list)], [isinstance(v, (dict, list))]. *)
Definition is_dict (v : value) : bool :=
  match v with VDict _ => true | _ => false end.
Definition is_list (v : value) : bool :=
  match v with VList _ => true | _ => false end.
Definition is_dict_or_list (v : value) : bool := is_dict v || is_list v.

(** [type(v).__name__] for the two composite types. *)
Definition type_name (v : value) : string :=
  match v with
  | VDict _ => "dict"
  | VList _ => "list"
  | VScalar SNone => "NoneType"
  | VScalar (SBool _) => "bool"
  | VScalar (SInt _) => "int"
  | VScalar (SStr _) => "str"
  end.

(** Python's [==] on scalars: [bool] is a subclass of [int], so [True == 1]. *)
Definition scalar_as_int (s : scalar) : option Z :=
  match s with
  | SBool b => Some (if b then 1 else 0)
  | SInt z => Some z
  | _ => None
  end.

Definition scalar_eqb (a b : scalar) : bool :=
  match a, b with
  | SNone, SNone => true
  | SStr s, SStr t => String.eqb s t
  | _, _ =>
      match scalar_as_int a, scalar_as_int b with
      | Some x, Some y => Z.eqb x y
      | _, _ => false
      end
  end.

(** Truth value of a scalar, as tested by [if path]. *)
Definition truthy (s : scalar) : bool :=
  match s with
  | SNone => false
  | SBool b => b
  | SInt z => negb (Z.eqb z 0)
  | SStr s => negb (String.eqb s "")
  end.

(** [d.get(k)]: the value stored under a key equal to [k]. *)
Fixpoint dict_get (d : list (scalar * value)) (k : scalar) : option value :=
  match d with
  | [] => None
  | (k', v) :: d' => if scalar_eqb k' k then Some v else dict_get d' k
  end.

(** [k in d]. *)
Definition dict_mem (d : list (scalar * value)) (k : scalar) : bool :=
  match dict_get d k with Some _ => true | None => false end.

(** ** String primitives *)

Definition ascii_lower (c : ascii) : ascii :=
  let n := nat_of_ascii c in
  if ((65 <=? n) && (n <=? 90))%nat then ascii_of_nat (n + 32) else c.

Definition ascii_upper (c : ascii) : ascii :=
  let n := nat_of_ascii c in
  if ((97 <=? n) && (n <=? 122))%nat then ascii_of_nat (n - 32) else c.

Fixpoint str_map (f : ascii -> ascii) (s : string) : string :=
  match s with
  | EmptyString => EmptyString
  | String c s' => String (f c) (str_map f s')
  end.

(** [s.lower()] and [s.upper()]. *)
Definition lower (s : string) : string := str_map ascii_lower s.
Definition upper (s : string) : string := str_map ascii_upper s.

(** [needle in hay] on strings: substring test. *)
Fixpoint str_contains (needle hay : string) : bool :=
  String.prefix needle hay ||
  match hay with
  | EmptyString => false
  | String _ hay' => str_contains needle hay'
  end.

Fixpoint str_mem (c : ascii) (s : string) : bool :=
  match s with
  | EmptyString => false
  | String c' s' => Ascii.eqb c c' || str_mem c s'
  end.

(** [sep.join(parts)]. *)
Definition join (sep : string) (parts : list string) : string :=
  String.concat sep parts.

(** [str(z)] for an integer. *)
Definition str_int (z : Z) : string := NilZero.string_of_int (Z.to_int z).

Definition hex_digit (n : nat) : ascii :=
  if (n <? 10)%nat then ascii_of_nat (48 + n) else ascii_of_nat (87 + n).

(** Two lower-case hexadecimal digits of a code point. *)
Definition hex2 (c : ascii) : string :=
  let n := nat_of_ascii c in
  String (hex_digit (n / 16)) (String (hex_digit (n mod 16)) EmptyString).

(** Code points that [repr] shows raw. *)
Definition printable (c : ascii) : bool :=
  let n := nat_of_ascii c in
  ((32 <=? n) && (n <=? 126) || (161 <=? n) && negb (n =? 173))%nat.

Definition dquote : ascii := "034"%char.
Definition squote : ascii := "039"%char.
Definition bslash : ascii := "092"%char.

Definition repr_char (quote : ascii) (c : ascii) : string :=
  if Ascii.eqb c quote || Ascii.eqb c bslash then String bslash (String c EmptyString)
  else if Ascii.eqb c "009"%char then String bslash "t"
  else if Ascii.eqb c "010"%char then String bslash "n"
  else if Ascii.eqb c "013"%char then String bslash "r"
  else if printable c then String c EmptyString
  else String bslash ("x" +:+ hex2 c).

Fixpoint repr_body (quote : ascii) (s : string) : string :=
  match s with
  | EmptyString => EmptyString
  | String c s' => repr_char quote c +:+ repr_body quote s'
  end.

(** [repr(s)] for a string: single quotes, unless the text has a single quote
    and no double quote. *)
Definition repr_str (s : string) : string :=
  let quote : ascii :=
    if str_mem squote s && negb (str_mem dquote s) then dquote else squote in
  String quote (repr_body quote s +:+ String quote EmptyString).

(** [str(x)] and [repr(x)] of a scalar. *)
Definition str_scalar (x : scalar) : string :=
  match x with
  | SNone => "None"
  | SBool true => "True"
  | SBool false => "False"
  | SInt z => str_int z
  | SStr s => s
  end.

Definition repr_scalar (x : scalar) : string :=
  match x with
  | SStr s => repr_str s
  | _ => str_scalar x
  end.

(** [repr(v)]: the display form of lists and dicts shows every item. *)
Fixpoint repr_value (v : value) : string :=
  match v with
  | VScalar x => repr_scalar x
  | VList l =>
      "[" +:+ join ", " ((fix go (l : list value) : list string :=
                            match l with
                            | [] => []
                            | x :: l' => repr_value x :: go l'
                            end) l) +:+ "]"
  | VDict d =>
      "{" +:+ join ", " ((fix go (d : list (scalar * value)) : list string :=
                            match d with
                            | [] => []
                            | (k, x) :: d' =>
                                (repr_scalar k +:+ ": " +:+ repr_value x) :: go d'
                            end) d) +:+ "}"
  end.

(** [str(v)]: differs from [repr] on a string only. *)
Definition str_value (v : value) : string :=
  match v with
  | VScalar x => str_scalar x
  | _ => repr_value v
  end.

(** ** The recursive search of [search_toast_spec] *)

(** A hit is the dict the source appends to [results]. *)
Definition shown (v : value) : value :=
  if is_dict_or_list v then VStr ("<" +:+ type_name v +:+ ">") else v.

Definition hit_keyed (current_path key : scalar) (v : value) : value :=
  VDict [(SStr "path", VScalar current_path);
         (SStr "key", VScalar key);
         (SStr "value", shown v)].

Definition hit_indexed (current_path : string) (v : value) : value :=
  VDict [(SStr "path", VStr current_path);
         (SStr "value", shown v)].

(** [f"{path}.{key}" if path else key]: at the root the key itself. *)
Definition dict_path (path key : scalar) : scalar :=
  if truthy path then SStr (str_scalar path +:+ "." +:+ str_scalar key) else key.

(** [f"{path}[{i}]"]. *)
Definition list_path (path : scalar) (i : nat) : string :=
  str_scalar path +:+ "[" +:+ str_int (Z.of_nat i) +:+ "]".

Fixpoint search_recursive (search_term : string) (obj : value) (path : scalar)
  : list value :=
  match obj with
  | VDict d =>
      (fix items (d : list (scalar * value)) : list value :=
         match d with
         | [] => []
         | (key, v) :: d' =>
             let current_path := dict_path path key in
             (if str_contains search_term (lower (str_scalar key))
                 || str_contains search_term (lower (str_value v))
              then [hit_keyed current_path key v] else [])
             ++ (if is_dict_or_list v
                 then search_recursive search_term v current_path else [])
             ++ items d'
         end) d
  | VList l =>
      (fix items (l : list value) (i : nat) : list value :=
         match l with
         | [] => []
         | item :: l' =>
             let current_path := list_path path i in
             (if str_contains search_term (lower (str_value item))
              then [hit_indexed current_path item] else [])
             ++ (if is_dict_or_list item
                 then search_recursive search_term item (SStr current_path) else [])
             ++ items l' (S i)
         end) l 0%nat
  | VScalar _ => []
  end.

Definition doc_c1 : value :=
  VDict [(SStr "a", VDict [(SStr "foo", VInt 1)]);
         (SStr "b", VList [VStr "nofoo"; VStr "bar"])].


(** ** [json.dumps(obj, indent=2)] *)

(** One character of a JSON string.  [ensure_ascii] is on: everything outside
    the printable ASCII range is written as a [\u] escape. *)
Definition json_escape_char (c : ascii) : string :=
  let n := nat_of_ascii c in
  if Ascii.eqb c dquote then String bslash (String dquote EmptyString)
  else if Ascii.eqb c bslash then String bslash (String bslash EmptyString)
  else if Ascii.eqb c "010"%char then String bslash "n"
  else if Ascii.eqb c "013"%char then String bslash "r"
  else if Ascii.eqb c "009"%char then String bslash "t"
  else if Ascii.eqb c "008"%char then String bslash "b"
  else if Ascii.eqb c "012"%char then String bslash "f"
  else if ((32 <=? n) && (n <=? 126))%nat then String c EmptyString
  else String bslash ("u00" +:+ hex2 c).

Fixpoint json_escape (s : string) : string :=
  match s with
  | EmptyString => EmptyString
  | String c s' => json_escape_char c +:+ json_escape s'
  end.

Definition json_string (s : string) : string :=
  String dquote (json_escape s +:+ String dquote EmptyString).

(** The text a dict key is written as: keys that are not strings are
    coerced ([True] to [true], [None] to [null], an integer to its digits). *)
Definition json_key (k : scalar) : string :=
  match k with
  | SStr s => s
  | SBool true => "true"
  | SBool false => "false"
  | SNone => "null"
  | SInt z => str_int z
  end.

Definition json_scalar (x : scalar) : string :=
  match x with
  | SNone => "null"
  | SBool true => "true"
  | SBool false => "false"
  | SInt z => str_int z
  | SStr s => json_string s
  end.

Fixpoint spaces (n : nat) : string :=
  match n with
  | O => EmptyString
  | S n' => String " "%char (spaces n')
  end.

(** A line break followed by the indentation of nesting depth [level]. *)
Definition newline_indent (level : nat) : string :=
  String "010"%char (spaces (2 * level)).

(** The items after the first one: each follows a separator. *)
Section EncodeItems.

Variable encode : value -> string.
Variable separator : string.

Fixpoint encode_more (l : list value) : string :=
  match l with
  | [] => EmptyString
  | y :: l' => separator +:+ encode y +:+ encode_more l'
  end.

Definition encode_member (member : scalar * value) : string :=
  json_string (json_key (fst member)) +:+ ": " +:+ encode (snd member).

Fixpoint encode_more_members (d : list (scalar * value)) : string :=
  match d with
  | [] => EmptyString
  | member :: d' => separator +:+ encode_member member +:+ encode_more_members d'
  end.

End EncodeItems.

Fixpoint json_encode (level : nat) (v : value) : string :=
  match v with
  | VScalar x => json_scalar x
  | VList [] => "[]"
  | VList (x :: l) =>
      "[" +:+ newline_indent (S level) +:+ json_encode (S level) x +:+
      encode_more (json_encode (S level)) ("," +:+ newline_indent (S level)) l +:+
      newline_indent level +:+ "]"
  | VDict [] => "{}"
  | VDict (member :: d) =>
      "{" +:+ newline_indent (S level) +:+
      encode_member (json_encode (S level)) member +:+
      encode_more_members (json_encode (S level)) ("," +:+ newline_indent (S level)) d +:+
      newline_indent level +:+ "}"
  end.

Definition json_dumps (v : value) : string := json_encode 0 v.

(** ** Exceptions and the state the handlers run in *)

Inductive exn : Type :=
| ValueError (msg : string)
| Exception (msg : string)
| TypeError
| AttributeError
| KeyError.

Inductive result (A : Type) : Type :=
| Ok (a : A)
| Raise (e : exn).
Arguments Ok {A} a.
Arguments Raise {A} e.

Definition rbind {A B} (r : result A) (k : A -> result B) : result B :=
  match r with
  | Ok a => k a
  | Raise e => Raise e
  end.

(** What the two statements [requests.get(url, timeout=30)] and
    [response.raise_for_status()] come to: the body text, or a
    [requests.RequestException] with its message. *)
Inductive http_outcome : Type :=
| HttpOk (text : string)
| RequestException (reason : string).

(** What [yaml.safe_load(text)] comes to. *)
Inductive yaml_outcome : Type :=
| YamlOk (v : value)
| YAMLError (reason : string).

(** The module-level cache, with a record of the effects performed so far:
    the URLs requested over the network (latest first) and the number of
    documents parsed. *)
Record state : Type := mkState {
  specs_cache : gmap string value;
  requested : list string;
  parsed : nat
}.

Definition initial_state : state :=
  {| specs_cache := ∅; requested := []; parsed := 0%nat |}.

Definition M (A : Type) : Type := state -> result A * state.

Definition ret {A} (a : A) : M A := fun st => (Ok a, st).
Definition raise {A} (e : exn) : M A := fun st => (Raise e, st).
Definition bind {A B} (m : M A) (k : A -> M B) : M B :=
  fun st =>
    match m st with
    | (Ok a, st') => k a st'
    | (Raise e, st') => (Raise e, st')
    end.
Definition lift {A} (r : result A) : M A := fun st => (r, st).

#[global] Instance M_ret : MRet M := @ret.
#[global] Instance M_bind : MBind M := fun A B k m => bind m k.

(** ** The catalog *)

Definition TOAST_SPECS : list (string * string) :=
  [("reporting", "https://doc.toasttab.com/toast-api-specifications/toast-reporting-api.yaml");
   ("authentication", "https://doc.toasttab.com/toast-api-specifications/toast-authentication-api.yaml");
   ("cashmgmt", "https://doc.toasttab.com/toast-api-specifications/toast-cashmgmt-api.yaml");
   ("config", "https://doc.toasttab.com/toast-api-specifications/toast-config-api.yaml");
   ("ccpartner", "https://doc.toasttab.com/toast-api-specifications/toast-ccpartner-api.yaml");
   ("kitchen", "https://doc.toasttab.com/openapi/kitchen/overview/");
   ("labor", "https://doc.toasttab.com/openapi/labor/overview/");
   ("menus", "https://doc.toasttab.com/openapi/menus/overview/");
   ("menus-v3", "https://doc.toasttab.com/toast-api-specifications/toast-menus-api-v3.yaml");
   ("ordermgmt-config", "https://doc.toasttab.com/toast-api-specifications/toast-ordermgmt-config-api-docs.yaml");
   ("orders", "https://doc.toasttab.com/toast-api-specifications/toast-orders-api.yaml");
   ("packaging", "https://doc.toasttab.com/openapi/packaging/overview/");
   ("partners", "https://doc.toasttab.com/openapi/partners/overview/");
   ("rx-availability", "https://doc.toasttab.com/openapi/rx.availability.service/overview/");
   ("restaurants", "https://doc.toasttab.com/toast-api-specifications/toast-restaurants-api.yaml");
   ("stock", "https://doc.toasttab.com/toast-api-specifications/toast-stock-api.yaml");
   ("giftcard-integration", "https://doc.toasttab.com/toast-api-specifications/toast-integrations-giftcard-api.yaml");
   ("loyalty-integration", "https://doc.toasttab.com/toast-api-specifications/toast-integrations-loyalty-api.yaml");
   ("tender-integration", "https://doc.toasttab.com/toast-api-specifications/toast-tender-api.yaml")].

(** [TOAST_SPECS.keys()] and [TOAST_SPECS[name]]. *)
Definition catalog_keys : list string := map fst TOAST_SPECS.

Fixpoint assoc_get {A} (l : list (string * A)) (k : string) : option A :=
  match l with
  | [] => None
  | (k', a) :: l' => if String.eqb k' k then Some a else assoc_get l' k
  end.

(** A tool argument read with [arguments.get(name)]: a string, or [None]
    when the caller left it out. *)
Definition arg : Type := option string.

Definition str_arg (a : arg) : string :=
  match a with Some s => s | None => "None" end.

Definition arg_scalar (a : arg) : scalar :=
  match a with Some s => SStr s | None => SNone end.

Definition unknown_spec_message (spec_name : arg) : string :=
  "Unknown spec: " +:+ str_arg spec_name +:+ ". Available specs: " +:+
  join ", " catalog_keys.

Definition fetch_failed_message (url reason : string) : string :=
  "Failed to fetch spec from " +:+ url +:+ ": " +:+ reason.

Definition parse_failed_message (url reason : string) : string :=
  "Failed to parse YAML from " +:+ url +:+ ": " +:+ reason.

#[global] Instance result_ret : MRet result := @Ok.
#[global] Instance result_bind : MBind result := fun A B k r => rbind r k.

(** ** Operators of the host language used on parsed documents *)

(** [x in container].  A dict tests its keys, a list its items, a string its
    substrings; anything else is not iterable. *)
Definition py_in (x : scalar) (container : value) : result bool :=
  match container with
  | VDict d => Ok (dict_mem d x)
  | VList l =>
      Ok (existsb (fun v => match v with
                            | VScalar y => scalar_eqb y x
                            | _ => false
                            end) l)
  | VScalar (SStr s) =>
      match x with
      | SStr t => Ok (str_contains t s)
      | _ => Raise TypeError
      end
  | VScalar _ => Raise TypeError
  end.

(** [container[k]] for a key that is a string or [None]: only a dict can be
    indexed that way. *)
Definition py_getitem (container : value) (k : scalar) : result value :=
  match container with
  | VDict d =>
      match dict_get d k with
      | Some v => Ok v
      | None => Raise KeyError
      end
  | _ => Raise TypeError
  end.

(** [v.items()]. *)
Definition py_items (v : value) : result (list (scalar * value)) :=
  match v with
  | VDict d => Ok d
  | _ => Raise AttributeError
  end.

(** [k.upper()]. *)
Definition py_upper (k : scalar) : result string :=
  match k with
  | SStr s => Ok (upper s)
  | _ => Raise AttributeError
  end.

(** [details.get(name, "")]. *)
Definition get_or_empty (details : list (scalar * value)) (name : string) : value :=
  match dict_get details (SStr name) with
  | Some v => v
  | None => VStr ""
  end.

(** ** Endpoint listing ([get_toast_endpoints]) *)

Definition endpoint (path : scalar) (method : string) (details : list (scalar * value))
  : value :=
  VDict [(SStr "path", VScalar path);
         (SStr "method", VStr method);
         (SStr "summary", get_or_empty details "summary");
         (SStr "description", get_or_empty details "description")].

(** The inner loop [for method, details in methods.items()]. *)
Fixpoint endpoints_of_methods (path : scalar) (methods : list (scalar * value))
  : result (list value) :=
  match methods with
  | [] => Ok []
  | (method, details) :: methods' =>
      match details with
      | VDict d =>
          m ← py_upper method;
          es ← endpoints_of_methods path methods';
          Ok (endpoint path m d :: es)
      | _ => endpoints_of_methods path methods'
      end
  end.

(** The outer loop [for path, methods in spec_data["paths"].items()]. *)
Fixpoint endpoints_of_paths (paths : list (scalar * value)) : result (list value) :=
  match paths with
  | [] => Ok []
  | (path, methods) :: paths' =>
      ms ← py_items methods;
      es ← endpoints_of_methods path ms;
      es' ← endpoints_of_paths paths';
      Ok (es ++ es')
  end.

Definition listEndpoints (spec_data : value) : result (list value) :=
  has_paths ← py_in (SStr "paths") spec_data;
  if has_paths : bool then
    paths ← py_getitem spec_data (SStr "paths");
    items ← py_items paths;
    endpoints_of_paths items
  else Ok [].

(** ** Endpoint lookup ([get_toast_endpoint_details]) *)

Definition endpoint_not_found_message (endpoint_path spec_name : arg) : string :=
  "Endpoint " +:+ str_arg endpoint_path +:+ " not found in " +:+
  str_arg spec_name +:+ " specification".

Definition getEndpoint (spec_name endpoint_path : arg) (spec_data : value)
  : result value :=
  has_paths ← py_in (SStr "paths") spec_data;
  missing ← (if has_paths : bool then
               paths ← py_getitem spec_data (SStr "paths");
               found ← py_in (arg_scalar endpoint_path) paths;
               Ok (negb found)
             else Ok true);
  if missing : bool then
    Raise (ValueError (endpoint_not_found_message endpoint_path spec_name))
  else
    paths ← py_getitem spec_data (SStr "paths");
    py_getitem paths (arg_scalar endpoint_path).

(** ** Search ([search_toast_spec]) *)

Definition more_results_note (n : nat) : string :=
  String "010"%char (String "010"%char
    ("... and " +:+ str_int (Z.of_nat n - 50) +:+ " more results")).

(** The text built from [search_results]: the first fifty hits, and a note
    when there are more. *)
Definition search_text (search_results : list value) : string :=
  json_dumps (VList (firstn 50 search_results)) +:+
  (if (50 <? length search_results)%nat
   then more_results_note (length search_results) else "").

(** ** The server *)

Section Server.

(** The network and the YAML parser.  The answer of the network may change
    from one request to the next: it is indexed by the number of requests
    made before. *)
Variable requests_get : nat -> string -> http_outcome.
Variable yaml_safe_load : string -> yaml_outcome.

Definition cache_get (spec_name : arg) : M (option value) :=
  fun st => (Ok (spec_name ≫= (fun k => specs_cache st !! k)), st).

Definition cache_put (spec_name : string) (spec_data : value) : M unit :=
  fun st => (Ok tt, {| specs_cache := <[spec_name := spec_data]> (specs_cache st);
                       requested := requested st;
                       parsed := parsed st |}).

(** [requests.get] then [raise_for_status], inside the [try]: a
    [RequestException] becomes the [Exception] of the first handler. *)
Definition http_get (url : string) : M string :=
  fun st =>
    let st' := {| specs_cache := specs_cache st;
                  requested := url :: requested st;
                  parsed := parsed st |} in
    match requests_get (length (requested st)) url with
    | HttpOk text => (Ok text, st')
    | RequestException reason =>
        (Raise (Exception (fetch_failed_message url reason)), st')
    end.

(** [yaml.safe_load], inside the [try]: a [YAMLError] becomes the
    [Exception] of the second handler. *)
Definition safe_load (url text : string) : M value :=
  fun st =>
    let st' := {| specs_cache := specs_cache st;
                  requested := requested st;
                  parsed := S (parsed st) |} in
    match yaml_safe_load text with
    | YamlOk v => (Ok v, st')
    | YAMLError reason =>
        (Raise (Exception (parse_failed_message url reason)), st')
    end.

Definition fetch_yaml_spec (spec_name : arg) : M value :=
  cached ← cache_get spec_name;
  match cached with
  | Some spec_data => mret spec_data
  | None =>
      match spec_name ≫= assoc_get TOAST_SPECS, spec_name with
      | Some url, Some name =>
          text ← http_get url;
          spec_data ← safe_load url text;
          _ ← cache_put name spec_data;
          mret spec_data
      | _, _ => raise (ValueError (unknown_spec_message spec_name))
      end
  end.

(** [arguments.get(name)]; [arguments] itself may be [None]. *)
Definition arguments_get (arguments : option (list (string * string)))
    (name : string) : result arg :=
  match arguments with
  | Some d => Ok (assoc_get d name)
  | None => Raise AttributeError
  end.

Definition specs_list : value :=
  VList (map (fun '(spec_name, url) =>
                VDict [(SStr "name", VStr spec_name); (SStr "url", VStr url)])
             TOAST_SPECS).

Definition tool_list_toast_specs : M string :=
  mret (json_dumps specs_list).

Definition tool_get_toast_spec (arguments : option (list (string * string)))
  : M string :=
  spec_name ← lift (arguments_get arguments "spec_name");
  spec_data ← fetch_yaml_spec spec_name;
  mret (json_dumps spec_data).

Definition tool_get_toast_endpoints (arguments : option (list (string * string)))
  : M string :=
  spec_name ← lift (arguments_get arguments "spec_name");
  spec_data ← fetch_yaml_spec spec_name;
  endpoints ← lift (listEndpoints spec_data);
  mret (json_dumps (VList endpoints)).

Definition tool_get_toast_endpoint_details
    (arguments : option (list (string * string))) : M string :=
  spec_name ← lift (arguments_get arguments "spec_name");
  endpoint_path ← lift (arguments_get arguments "endpoint_path");
  spec_data ← fetch_yaml_spec spec_name;
  endpoint_data ← lift (getEndpoint spec_name endpoint_path spec_data);
  mret (json_dumps endpoint_data).

Definition tool_search_toast_spec (arguments : option (list (string * string)))
  : M string :=
  spec_name ← lift (arguments_get arguments "spec_name");
  term ← lift (arguments_get arguments "search_term");
  let search_term := lower (default "" term) in
  spec_data ← fetch_yaml_spec spec_name;
  let search_results := search_recursive search_term spec_data (SStr "") in
  mret (search_text search_results).

(** The dispatcher.  Its result is the text of the single [TextContent] the
    source returns.  The [except] clause around the branches logs the error
    and raises it again, so an exception leaves as it was raised; logging is
    not part of the state. *)
Definition handle_call_tool (name : string)
    (arguments : option (list (string * string))) : M string :=
  if String.eqb name "list_toast_specs" then tool_list_toast_specs
  else if String.eqb name "get_toast_spec" then tool_get_toast_spec arguments
  else if String.eqb name "get_toast_endpoints" then tool_get_toast_endpoints arguments
  else if String.eqb name "get_toast_endpoint_details"
       then tool_get_toast_endpoint_details arguments
  else if String.eqb name "search_toast_spec" then tool_search_toast_spec arguments
  else raise (ValueError ("Unknown tool: " +:+ name)).

End Server.


(** ** Reading JSON text back ([json.loads]) *)

(** The reader follows the decoder of the standard library: white space is
    skipped around values and delimiters, a string is scanned up to its
    closing quote with its escapes decoded, a number is the longest run of
    digits after an optional sign, an object is built by inserting its
    members in order.  Two things fall outside the value type and make it
    return [None]: a number with a fraction or an exponent, and a [\u] escape
    of a code point above 255. *)

Definition is_ws (c : ascii) : bool :=
  Ascii.eqb c " "%char || Ascii.eqb c "009"%char
  || Ascii.eqb c "010"%char || Ascii.eqb c "013"%char.

Fixpoint skip_ws (s : string) : string :=
  match s with
  | String c s' => if is_ws c then skip_ws s' else s
  | EmptyString => s
  end.

Definition is_digit (c : ascii) : bool :=
  let n := nat_of_ascii c in ((48 <=? n) && (n <=? 57))%nat.

Definition hex_value (c : ascii) : option nat :=
  let n := nat_of_ascii c in
  if ((48 <=? n) && (n <=? 57))%nat then Some (n - 48)%nat
  else if ((97 <=? n) && (n <=? 102))%nat then Some (n - 87)%nat
  else if ((65 <=? n) && (n <=? 70))%nat then Some (n - 55)%nat
  else None.

(** The code point written by four hexadecimal digits. *)
Definition hex4 (a b c d : ascii) : option nat :=
  match hex_value a, hex_value b, hex_value c, hex_value d with
  | Some x, Some y, Some z, Some w => Some (((x * 16 + y) * 16 + z) * 16 + w)%nat
  | _, _, _, _ => None
  end.

(** The character a one-letter escape stands for. *)
Definition unescape (e : ascii) : option ascii :=
  if Ascii.eqb e dquote then Some dquote
  else if Ascii.eqb e bslash then Some bslash
  else if Ascii.eqb e "/"%char then Some "/"%char
  else if Ascii.eqb e "b"%char then Some "008"%char
  else if Ascii.eqb e "f"%char then Some "012"%char
  else if Ascii.eqb e "n"%char then Some "010"%char
  else if Ascii.eqb e "r"%char then Some "013"%char
  else if Ascii.eqb e "t"%char then Some "009"%char
  else None.

Definition scanned (c : ascii) (tail : option (string * string))
  : option (string * string) :=
  match tail with
  | Some (t, rest) => Some (String c t, rest)
  | None => None
  end.

(** The text of a string literal, from just after its opening quote: the
    decoded string and what follows the closing quote. *)
Fixpoint scan_string (s : string) : option (string * string) :=
  match s with
  | EmptyString => None
  | String c rest =>
      if Ascii.eqb c dquote then Some (EmptyString, rest)
      else if Ascii.eqb c bslash then
        match rest with
        | String e rest1 =>
            if Ascii.eqb e "u"%char then
              match rest1 with
              | String h1 (String h2 (String h3 (String h4 rest2))) =>
                  match hex4 h1 h2 h3 h4 with
                  | Some n =>
                      if (n <? 256)%nat
                      then scanned (ascii_of_nat n) (scan_string rest2)
                      else None
                  | None => None
                  end
              | _ => None
              end
            else
              match unescape e with
              | Some c' => scanned c' (scan_string rest1)
              | None => None
              end
        | EmptyString => None
        end
      else if (nat_of_ascii c <? 32)%nat then None
      else scanned c (scan_string rest)
  end.

(** The longest run of digits at the front of the text, and the rest. *)
Fixpoint span_digits (s : string) : string * string :=
  match s with
  | String c s' =>
      if is_digit c
      then let '(ds, rest) := span_digits s' in (String c ds, rest)
      else (EmptyString, s)
  | EmptyString => (EmptyString, EmptyString)
  end.

(** A digit run of two or more digits must not start with a zero. *)
Definition leading_zero (ds : string) : bool :=
  match ds with
  | String c (String _ _) => Ascii.eqb c "0"%char
  | _ => false
  end.

(** What may follow an integer: not the start of a fraction or exponent. *)
Definition ends_integer (rest : string) : bool :=
  match rest with
  | String c _ =>
      negb (Ascii.eqb c "."%char || Ascii.eqb c "e"%char || Ascii.eqb c "E"%char)
  | EmptyString => true
  end.

Definition scan_number (s : string) : option (Z * string) :=
  let '(sign, body) :=
    match s with
    | String c s' => if Ascii.eqb c "-"%char then ("-", s') else (EmptyString, s)
    | EmptyString => (EmptyString, s)
    end in
  let '(ds, rest) := span_digits body in
  match ds with
  | EmptyString => None
  | _ =>
      if leading_zero ds || negb (ends_integer rest) then None
      else
        match NilZero.int_of_string (sign +:+ ds) with
        | Some d => Some (Z.of_int d, rest)
        | None => None
        end
  end.

(** [d[k] = v]: a key already present keeps its place and gets the value. *)
Fixpoint dict_set (d : list (scalar * value)) (k : scalar) (v : value)
  : list (scalar * value) :=
  match d with
  | [] => [(k, v)]
  | (k', v') :: d' =>
      if scalar_eqb k' k then (k', v) :: d' else (k', v') :: dict_set d' k v
  end.

(** [dict(pairs)]. *)
Definition dict_of_pairs (pairs : list (scalar * value)) : list (scalar * value) :=
  fold_left (fun d member => dict_set d (fst member) (snd member)) pairs [].

(** The text after the literal [lit], when the text starts with it. *)
Fixpoint starts_with (lit s : string) : option string :=
  match lit, s with
  | EmptyString, _ => Some s
  | String a lit', String b s' =>
      if Ascii.eqb a b then starts_with lit' s' else None
  | String _ _, EmptyString => None
  end.

(** One value at the front of the text, and the rest of the text.  The
    recursion is bounded by [fuel]; [json_loads] gives it the length of the
    text, which is more than any nesting in it. *)
Fixpoint parse_value (fuel : nat) (s : string) : option (value * string) :=
  match fuel with
  | O => None
  | S fuel' =>
      match s with
      | EmptyString => None
      | String c rest =>
          if Ascii.eqb c dquote then
            match scan_string rest with
            | Some (t, r) => Some (VStr t, r)
            | None => None
            end
          else if Ascii.eqb c "["%char then
            match skip_ws rest with
            | EmptyString => None
            | String c' r =>
                if Ascii.eqb c' "]"%char then Some (VList [], r)
                else
                  match parse_items fuel' (String c' r) with
                  | Some (items, r') => Some (VList items, r')
                  | None => None
                  end
            end
          else if Ascii.eqb c "{"%char then
            match skip_ws rest with
            | EmptyString => None
            | String c' r =>
                if Ascii.eqb c' "}"%char then Some (VDict [], r)
                else
                  match parse_members fuel' (String c' r) with
                  | Some (pairs, r') => Some (VDict (dict_of_pairs pairs), r')
                  | None => None
                  end
            end
          else
            match starts_with "null" s, starts_with "true" s, starts_with "false" s with
            | Some r, _, _ => Some (VNone, r)
            | _, Some r, _ => Some (VScalar (SBool true), r)
            | _, _, Some r => Some (VScalar (SBool false), r)
            | _, _, _ =>
                match scan_number s with
                | Some (z, r) => Some (VInt z, r)
                | None => None
                end
            end
      end
  end

(** The items of an array, from the first one up to the closing bracket. *)
with parse_items (fuel : nat) (s : string) : option (list value * string) :=
  match fuel with
  | O => None
  | S fuel' =>
      match parse_value fuel' s with
      | None => None
      | Some (v, r) =>
          match skip_ws r with
          | EmptyString => None
          | String c r' =>
              if Ascii.eqb c "]"%char then Some ([v], r')
              else if Ascii.eqb c ","%char then
                match parse_items fuel' (skip_ws r') with
                | Some (vs, r'') => Some (v :: vs, r'')
                | None => None
                end
              else None
          end
      end
  end

(** The members of an object, from the first key up to the closing brace. *)
with parse_members (fuel : nat) (s : string)
  : option (list (scalar * value) * string) :=
  match fuel with
  | O => None
  | S fuel' =>
      match s with
      | EmptyString => None
      | String q r0 =>
          if negb (Ascii.eqb q dquote) then None
          else
            match scan_string r0 with
            | None => None
            | Some (k, r1) =>
                match skip_ws r1 with
                | EmptyString => None
                | String colon r2 =>
                    if negb (Ascii.eqb colon ":"%char) then None
                    else
                      match parse_value fuel' (skip_ws r2) with
                      | None => None
                      | Some (v, r3) =>
                          match skip_ws r3 with
                          | EmptyString => None
                          | String c r4 =>
                              if Ascii.eqb c "}"%char then Some ([(SStr k, v)], r4)
                              else if Ascii.eqb c ","%char then
                                match parse_members fuel' (skip_ws r4) with
                                | Some (ms, r5) => Some ((SStr k, v) :: ms, r5)
                                | None => None
                                end
                              else None
                          end
                      end
                end
            end
      end
  end.

(** [json.loads(text)]: one value, with nothing but white space around it. *)
Definition json_loads (text : string) : option value :=
  match parse_value (S (String.length text)) (skip_ws text) with
  | Some (v, rest) =>
      match skip_ws rest with
      | EmptyString => Some v
      | _ => None
      end
  | None => None
  end.


(** * Statements *)

(** ** The five ways a call of [fetch_yaml_spec] can end *)

Inductive fetch_outcome (requests_get : nat -> string -> http_outcome)
    (yaml_safe_load : string -> yaml_outcome) (spec_name : arg) (st : state)
  : result value * state -> Prop :=
| fetch_hit k spec_data :
    spec_name = Some k ->
    specs_cache st !! k = Some spec_data ->
    fetch_outcome requests_get yaml_safe_load spec_name st (Ok spec_data, st)
| fetch_unknown :
    spec_name ≫= (fun k => specs_cache st !! k) = None ->
    spec_name ≫= assoc_get TOAST_SPECS = None ->
    fetch_outcome requests_get yaml_safe_load spec_name st
      (Raise (ValueError (unknown_spec_message spec_name)), st)
| fetch_transport k url reason :
    spec_name = Some k ->
    specs_cache st !! k = None ->
    assoc_get TOAST_SPECS k = Some url ->
    requests_get (length (requested st)) url = RequestException reason ->
    fetch_outcome requests_get yaml_safe_load spec_name st
      (Raise (Exception (fetch_failed_message url reason)),
       {| specs_cache := specs_cache st;
          requested := url :: requested st;
          parsed := parsed st |})
| fetch_malformed k url text reason :
    spec_name = Some k ->
    specs_cache st !! k = None ->
    assoc_get TOAST_SPECS k = Some url ->
    requests_get (length (requested st)) url = HttpOk text ->
    yaml_safe_load text = YAMLError reason ->
    fetch_outcome requests_get yaml_safe_load spec_name st
      (Raise (Exception (parse_failed_message url reason)),
       {| specs_cache := specs_cache st;
          requested := url :: requested st;
          parsed := S (parsed st) |})
| fetch_stored k url text spec_data :
    spec_name = Some k ->
    specs_cache st !! k = None ->
    assoc_get TOAST_SPECS k = Some url ->
    requests_get (length (requested st)) url = HttpOk text ->
    yaml_safe_load text = YamlOk spec_data ->
    fetch_outcome requests_get yaml_safe_load spec_name st
      (Ok spec_data,
       {| specs_cache := <[k := spec_data]> (specs_cache st);
          requested := url :: requested st;
          parsed := S (parsed st) |}).

(** ** The cache and the catalog *)

(** Every cached identifier is a key of the catalog. *)
Definition cache_within_catalog (st : state) : Prop :=
  forall k, is_Some (specs_cache st !! k) -> In k catalog_keys.

(** The cache after a tool call: as before, or with the tree of a successful
    fetch stored under a catalog identifier that had no entry. *)
Definition cache_step (requests_get : nat -> string -> http_outcome)
    (yaml_safe_load : string -> yaml_outcome) (st st' : state) : Prop :=
  specs_cache st' = specs_cache st
  \/ exists id tree,
       In id catalog_keys
       /\ specs_cache st !! id = None
       /\ fetch_yaml_spec requests_get yaml_safe_load (Some id) st = (Ok tree, st')
       /\ specs_cache st' = <[id := tree]> (specs_cache st).

(** The states the server can be in: the initial one, and the one left by a
    tool call, whatever its name, arguments and result. *)
Inductive reachable (requests_get : nat -> string -> http_outcome)
    (yaml_safe_load : string -> yaml_outcome) : state -> Prop :=
| reachable_initial : reachable requests_get yaml_safe_load initial_state
| reachable_call st name arguments :
    reachable requests_get yaml_safe_load st ->
    reachable requests_get yaml_safe_load
      (snd (handle_call_tool requests_get yaml_safe_load name arguments st)).

(** ** The search example *)

Definition doc_search_example : value :=
  VDict [(SStr "a", VDict [(SStr "foo", VInt 1)]);
         (SStr "b", VList [VStr "nofoo"; VStr "bar"])].

(** The locator of a hit. *)
Definition hit_locator (hit : value) : option scalar :=
  match hit with
  | VDict d =>
      match dict_get d (SStr "path") with
      | Some (VScalar p) => Some p
      | _ => None
      end
  | _ => None
  end.

Definition has_hit_at (loc : string) (hits : list value) : bool :=
  existsb (fun hit => match hit_locator hit with
                      | Some p => scalar_eqb p (SStr loc)
                      | None => false
                      end) hits.

(** ** The endpoint example *)

Definition doc_endpoint_example : value :=
  VDict [(SStr "paths",
          VDict [(SStr "/v2/reports",
                  VDict [(SStr "get", VDict [(SStr "summary", VStr "S")]);
                         (SStr "parameters", VList [VStr "x"])])])].

(** ** Reading [paths] the way the specification words it *)

(** The [paths] entry of a tree; a tree that is not a mapping has none. *)
Definition paths_of (tree : value) : option value :=
  match tree with
  | VDict d => dict_get d (SStr "paths")
  | _ => None
  end.

(** [path] is a key of [paths]; only a mapping has keys. *)
Definition is_key_of (path : scalar) (paths : value) : bool :=
  match paths with
  | VDict d => dict_mem d path
  | _ => false
  end.

(** The lookup is refused when [paths] is absent or [path] is not one of its
    keys. *)
Definition endpoint_absent (tree : value) (path : scalar) : Prop :=
  match paths_of tree with
  | None => True
  | Some paths => is_key_of path paths = false
  end.

(** The sub-tree stored at [paths[path]]. *)
Definition endpoint_subtree (tree : value) (path : scalar) : option value :=
  match paths_of tree with
  | Some (VDict d) => dict_get d path
  | _ => None
  end.

(** The lookup rule as the specification states it, at one tree and path. *)
Definition lookup_rule (spec_name endpoint_path : arg) (tree : value) : Prop :=
  (getEndpoint spec_name endpoint_path tree
   = Raise (ValueError (endpoint_not_found_message endpoint_path spec_name))
   <-> endpoint_absent tree (arg_scalar endpoint_path))
  /\ (~ endpoint_absent tree (arg_scalar endpoint_path) ->
      exists sub, endpoint_subtree tree (arg_scalar endpoint_path) = Some sub
                  /\ getEndpoint spec_name endpoint_path tree = Ok sub).

(** ** A document with many hits *)

Definition doc_many_hits : value := VList (repeat (VStr "foo") 73).

(** ** Sample networks and parsers *)

Definition net_serving (text : string) : nat -> string -> http_outcome :=
  fun _ _ => HttpOk text.

Definition net_down : nat -> string -> http_outcome :=
  fun _ _ => RequestException "timed out".

Definition yaml_yielding (v : value) : string -> yaml_outcome :=
  fun _ => YamlOk v.

Definition yaml_rejecting : string -> yaml_outcome :=
  fun _ => YAMLError "mapping values are not allowed here".

(** ** A root that is not a mapping *)

(** The rule as stated for such a root: the membership test raises a type
    error, in the listing and in the lookup. *)
Definition membership_raises (root : value) : Prop :=
  py_in (SStr "paths") root = Raise TypeError
  /\ listEndpoints root = Raise TypeError
  /\ forall spec_name endpoint_path,
       getEndpoint spec_name endpoint_path root = Raise TypeError.

(** What the two endpoint tools answer once the membership test has said
    [found]: a type error from the indexing that follows when it is [true],
    the empty listing and the not-found error when it is [false]. *)
Definition after_membership (found : bool) (spec_name endpoint_path : arg)
    (root : value) : Prop :=
  if found then
    listEndpoints root = Raise TypeError
    /\ getEndpoint spec_name endpoint_path root = Raise TypeError
  else
    listEndpoints root = Ok []
    /\ getEndpoint spec_name endpoint_path root
       = Raise (ValueError (endpoint_not_found_message endpoint_path spec_name)).

(** [x == "paths"] on an item of a sequence. *)
Definition is_paths_item (v : value) : bool :=
  match v with
  | VScalar y => scalar_eqb y (SStr "paths")
  | _ => false
  end.

(** ** Trees that survive serialization *)

Definition is_str (k : scalar) : bool :=
  match k with SStr _ => true | _ => false end.

(** No key of the mapping equals a later one. *)
Fixpoint keys_distinct (d : list (scalar * value)) : bool :=
  match d with
  | [] => true
  | (k, _) :: d' => negb (dict_mem d' k) && keys_distinct d'
  end.

(** Every mapping of the tree has distinct keys, as every [dict] has. *)
Fixpoint well_formed (v : value) : bool :=
  match v with
  | VScalar _ => true
  | VList l => forallb well_formed l
  | VDict d => keys_distinct d && forallb (fun member => well_formed (snd member)) d
  end.

(** Every key of every mapping of the tree is a string. *)
Fixpoint string_keyed (v : value) : bool :=
  match v with
  | VScalar _ => true
  | VList l => forallb string_keyed l
  | VDict d =>
      forallb (fun member => is_str (fst member) && string_keyed (snd member)) d
  end.

(** ** Integers that have a decimal form *)






(** ** The endpoint listing the way the specification words it *)

(** The four-field record of an endpoint. *)
Definition Endpoint (path : scalar) (method : string) (summary description : value)
  : value :=
  VDict [(SStr "path", VScalar path);
         (SStr "method", VStr method);
         (SStr "summary", summary);
         (SStr "description", description)].

(** The value of a key of [details], the empty string when it is absent. *)
Definition or_empty (found : option value) : value :=
  match found with
  | Some v => v
  | None => VStr ""
  end.

(** What one entry of a path's mapping contributes: one endpoint when its
    value is a mapping, nothing otherwise. *)
Definition entry_endpoints (path : scalar) (entry : scalar * value) : list value :=
  match entry with
  | (SStr method, VDict details) =>
      [Endpoint path (upper method)
         (or_empty (dict_get details (SStr "summary")))
         (or_empty (dict_get details (SStr "description")))]
  | _ => []
  end.

(** What one path contributes: the endpoints of its entries, in order. *)
Definition path_endpoints (item : scalar * value) : list value :=
  match item with
  | (path, VDict methods) => flat_map (entry_endpoints path) methods
  | _ => []
  end.

(** Every path holds a mapping. *)
Definition paths_hold_mappings (items : list (scalar * value)) : Prop :=
  forall path held, In (path, held) items -> is_dict held = true.

(** In every path's mapping, an entry whose value is a mapping has a string
    for its key. *)
Definition methods_are_strings (items : list (scalar * value)) : Prop :=
  forall path methods key details,
    In (path, VDict methods) items -> In (key, VDict details) methods ->
    is_str key = true.

(** A tree whose only entry is [paths]. *)
Definition doc_of_paths (items : list (scalar * value)) : value :=
  VDict [(SStr "paths", VDict items)].

(** The entries the specification includes: those whose value is a mapping,
    over the mappings of all paths. *)
Definition included_entries (items : list (scalar * value))
  : list (scalar * value) :=
  flat_map (fun item =>
              match snd item with
              | VDict methods => List.filter (fun entry => is_dict (snd entry)) methods
              | _ => []
              end) items.

(** The listing rule as the specification states it: no error, and one
    endpoint for each entry whose value is a mapping. *)
Definition listing_rule (items : list (scalar * value)) : Prop :=
  exists endpoints,
    listEndpoints (doc_of_paths items) = Ok endpoints
    /\ length endpoints = length (included_entries items).

(** A path with a mapping under the key [200]. *)
Definition paths_integer_method : list (scalar * value) :=
  [(SStr "/v2/reports", VDict [(SInt 200, VDict [(SStr "summary", VStr "S")])])].

(** Two paths, three operations and two skipped siblings. *)
Definition paths_two_paths : list (scalar * value) :=
  [(SStr "/v2/reports",
    VDict [(SStr "get", VDict [(SStr "summary", VStr "S")]);
           (SStr "parameters", VList [VStr "x"]);
           (SStr "post", VDict [(SStr "description", VStr "D")])]);
   (SStr "/v2/orders",
    VDict [(SStr "x-internal", VScalar (SBool true));
           (SStr "delete", VDict [])])].

(** ** Reading a payload back *)

(** Serializing the tree and reading the text back gives the tree. *)
Definition round_trips (tree : value) : Prop :=
  json_loads (json_dumps tree) = Some tree.

(** The fuel that reading a tree back takes. *)
Fixpoint need (v : value) : nat :=
  match v with
  | VScalar _ => 1
  | VList l => S (list_sum (map (fun x => S (need x)) l))
  | VDict d => S (list_sum (map (fun member => S (need (snd member))) d))
  end.

(** What follows a value in serialized text: nothing, a comma or a line
    break. *)
Definition delimits (rest : string) : bool :=
  match rest with
  | EmptyString => true
  | String c _ => Ascii.eqb c ","%char || Ascii.eqb c "010"%char
  end.

(** The first character of an integer: a sign or a digit. *)
Definition number_head (c : ascii) : bool := Ascii.eqb c "-" || is_digit c.

(** A character that can start a value: no white space, no closing bracket. *)
Definition value_head (c : ascii) : bool :=
  negb (is_ws c) && negb (Ascii.eqb c "]") && negb (Ascii.eqb c "}").

(** Reading the text of [v] at the front of a longer text gives [v] back and
    stops right after it. *)
Definition reads_back (v : value) : Prop :=
  forall level rest fuel,
    (need v <= fuel)%nat -> delimits rest = true ->
    parse_value fuel (json_encode level v +:+ rest) = Some (v, rest).

(** A member the reader gives back: a string key and a value that reads
    back. *)
Definition member_ok (member : scalar * value) : Prop :=
  is_str (fst member) = true /\ reads_back (snd member).


(** A document with a status code as a key, as [200: OK] parses. *)
Definition doc_status_codes : value := VDict [(SInt 200, VStr "OK")].

(** * Further statements *)

(** ** The entries a search walks over *)

(** An item of a mapping, or an item of a sequence, with its locator. *)
Inductive entry : Type :=
| Keyed (current_path key : scalar) (v : value)
| Indexed (current_path : string) (item : value).

(** Every entry of the tree below locator [path]: parent before children,
    mapping items in document order, sequence items by index. *)
Fixpoint entries (obj : value) (path : scalar) : list entry :=
  match obj with
  | VDict d =>
      (fix items (d : list (scalar * value)) : list entry :=
         match d with
         | [] => []
         | (key, v) :: d' =>
             Keyed (dict_path path key) key v
             :: entries v (dict_path path key) ++ items d'
         end) d
  | VList l =>
      (fix items (l : list value) (i : nat) : list entry :=
         match l with
         | [] => []
         | item :: l' =>
             Indexed (list_path path i) item
             :: entries item (SStr (list_path path i)) ++ items l' (S i)
         end) l 0%nat
  | VScalar _ => []
  end.

(** The term occurs in the lower-cased text of the key or of the value. *)
Definition entry_matches (search_term : string) (e : entry) : bool :=
  match e with
  | Keyed _ key v =>
      str_contains search_term (lower (str_scalar key))
      || str_contains search_term (lower (str_value v))
  | Indexed _ item => str_contains search_term (lower (str_value item))
  end.

Definition hit_of (e : entry) : value :=
  match e with
  | Keyed current_path key v => hit_keyed current_path key v
  | Indexed current_path item => hit_indexed current_path item
  end.

(** The number of entries of a tree: its mapping items and sequence items,
    at every depth. *)
Fixpoint count_entries (v : value) : nat :=
  match v with
  | VScalar _ => 0
  | VList l => list_sum (map (fun x => S (count_entries x)) l)
  | VDict d => list_sum (map (fun member => S (count_entries (snd member))) d)
  end.

Definition is_upper (c : ascii) : bool :=
  let n := nat_of_ascii c in ((65 <=? n) && (n <=? 90))%nat.

(** The text has an upper-case ASCII letter. *)
Fixpoint has_upper (s : string) : bool :=
  match s with
  | EmptyString => false
  | String c s' => is_upper c || has_upper s'
  end.

(** ** The shape the endpoint listing relies on *)

(** An item of a path's mapping the listing can handle: its value is not a
    mapping (it is skipped), or its key is a string (it has [upper]). *)
Definition method_entry_ok (member : scalar * value) : bool :=
  negb (is_dict (snd member)) || is_str (fst member).

(** The value of a path must be a mapping of such items. *)
Definition path_entry_ok (member : scalar * value) : bool :=
  match snd member with
  | VDict methods => forallb method_entry_ok methods
  | _ => false
  end.

Definition listing_shape_ok (paths : value) : bool :=
  match paths with
  | VDict items => forallb path_entry_ok items
  | _ => false
  end.

(** The endpoints of one path, in document order. *)
Definition endpoints_in (path : scalar) (methods : list (scalar * value))
  : list value :=
  flat_map (fun member =>
              match member with
              | (SStr method, VDict details) => [endpoint path (upper method) details]
              | _ => []
              end) methods.

(** The endpoints of all paths, in document order. *)
Definition listing (paths : value) : list value :=
  match paths with
  | VDict items =>
      flat_map (fun member =>
                  match snd member with
                  | VDict methods => endpoints_in (fst member) methods
                  | _ => []
                  end) items
  | _ => []
  end.

(** A field of a record such as an endpoint or a hit. *)
Definition field (name : string) (record : value) : option value :=
  match record with
  | VDict d => dict_get d (SStr name)
  | _ => None
  end.

(** ** Sequences of tool calls *)

(** The URLs of the catalog. *)
Definition catalog_urls : list string := map snd TOAST_SPECS.

(** The state after a sequence of tool calls, whatever they return. *)
Definition run_calls (requests_get : nat -> string -> http_outcome)
    (yaml_safe_load : string -> yaml_outcome)
    (calls : list (string * option (list (string * string)))) (st : state) : state :=
  fold_left (fun s c => snd (handle_call_tool requests_get yaml_safe_load
                              (fst c) (snd c) s)) calls st.

(** What a tool call does to the record of effects: nothing, or one request
    to a catalog URL followed by at most one parse, followed by at most one
    new cache entry. *)
Definition effects_step (st st' : state) : Prop :=
  st' = st
  \/ exists url,
       In url catalog_urls
       /\ requested st' = url :: requested st
       /\ ((parsed st' = parsed st /\ specs_cache st' = specs_cache st)
           \/ (parsed st' = S (parsed st)
               /\ (specs_cache st' = specs_cache st
                   \/ exists k t, specs_cache st !! k = None
                                  /\ specs_cache st' = <[k := t]> (specs_cache st)))).

(** The effects recorded so far are consistent: no more parses than requests,
    no more cache entries than parses, requests only to catalog URLs. *)
Definition effects_consistent (st : state) : Prop :=
  (parsed st <= length (requested st))%nat
  /\ (size (specs_cache st) <= parsed st)%nat
  /\ Forall (fun url => In url catalog_urls) (requested st).

(** ** The tools the server lists ([handle_list_tools]) *)

Record Tool : Type := mkTool {
  tool_name : string;
  tool_description : string;
  inputSchema : value
}.

(** The schema of a string argument. *)
Definition string_property (description : string) : value :=
  VDict [(SStr "type", VStr "string"); (SStr "description", VStr description)].

(** An object schema with its properties and the names it requires. *)
Definition object_schema (properties : list (scalar * value))
    (required : list string) : value :=
  VDict [(SStr "type", VStr "object");
         (SStr "properties", VDict properties);
         (SStr "required", VList (map VStr required))].

Definition spec_name_for_query : value :=
  string_property
    "The name of the spec. Use list_toast_specs to see all available specs.".

Definition handle_list_tools : list Tool :=
  [mkTool "list_toast_specs"
     "List all available Toast API specifications"
     (object_schema [] []);
   mkTool "get_toast_spec"
     "Get the full YAML specification for a Toast API. Available specs: reporting, authentication, cashmgmt, config, ccpartner, kitchen, labor, menus, menus-v3, ordermgmt-config, orders, packaging, partners, rx-availability, restaurants, stock, giftcard-integration, loyalty-integration, tender-integration"
     (object_schema
        [(SStr "spec_name",
          string_property
            "The name of the spec to retrieve. Use list_toast_specs to see all available specs.")]
        ["spec_name"]);
   mkTool "get_toast_endpoints"
     "Get all endpoints/paths from a Toast API specification"
     (object_schema [(SStr "spec_name", spec_name_for_query)] ["spec_name"]);
   mkTool "get_toast_endpoint_details"
     "Get detailed information about a specific endpoint in a Toast API"
     (object_schema
        [(SStr "spec_name", spec_name_for_query);
         (SStr "endpoint_path",
          string_property "The path of the endpoint (e.g., /v2/reports)")]
        ["spec_name"; "endpoint_path"]);
   mkTool "search_toast_spec"
     "Search for specific content within a Toast API specification"
     (object_schema
        [(SStr "spec_name", spec_name_for_query);
         (SStr "search_term",
          string_property "The term to search for in the specification")]
        ["spec_name"; "search_term"])].

Definition tool_names : list string := map tool_name handle_list_tools.

(** The argument names a tool's schema requires. *)
Definition required_arguments (tool : Tool) : list value :=
  match field "required" (inputSchema tool) with
  | Some (VList names) => names
  | _ => []
  end.

(** ** The query each tool makes on the fetched tree *)

(** What each tool that takes a spec returns once the fetch has returned. *)
Definition query_of (name : string) (d : list (string * string)) (tree : value)
  : result string :=
  if String.eqb name "get_toast_spec" then Ok (json_dumps tree)
  else if String.eqb name "get_toast_endpoints" then
    endpoints ← listEndpoints tree; Ok (json_dumps (VList endpoints))
  else if String.eqb name "get_toast_endpoint_details" then
    endpoint_data ← getEndpoint (assoc_get d "spec_name")
                      (assoc_get d "endpoint_path") tree;
    Ok (json_dumps endpoint_data)
  else
    Ok (search_text
          (search_recursive (lower (default "" (assoc_get d "search_term")))
             tree (SStr ""))).

(** ** The exceptions a tool call can raise *)

Inductive raised_by_tool (name : string) : exn -> Prop :=
| raised_unknown_tool :
    ~ In name tool_names ->
    raised_by_tool name (ValueError ("Unknown tool: " +:+ name))
| raised_attribute_error :
    In name tool_names -> name <> "list_toast_specs" ->
    raised_by_tool name AttributeError
| raised_unknown_spec spec_name :
    In name tool_names -> name <> "list_toast_specs" ->
    raised_by_tool name (ValueError (unknown_spec_message spec_name))
| raised_fetch_failed url reason :
    In name tool_names -> name <> "list_toast_specs" ->
    In url catalog_urls ->
    raised_by_tool name (Exception (fetch_failed_message url reason))
| raised_parse_failed url reason :
    In name tool_names -> name <> "list_toast_specs" ->
    In url catalog_urls ->
    raised_by_tool name (Exception (parse_failed_message url reason))
| raised_not_found endpoint_path spec_name :
    name = "get_toast_endpoint_details" ->
    raised_by_tool name
      (ValueError (endpoint_not_found_message endpoint_path spec_name))
| raised_type_error :
    In name tool_names -> name <> "list_toast_specs" ->
    raised_by_tool name TypeError.

(** ** The record the listing of specifications shows for a catalog entry *)

Definition spec_record (entry : string * string) : value :=
  VDict [(SStr "name", VStr (fst entry)); (SStr "url", VStr (snd entry))].

(** ** The characters of a payload *)

(** A line break or a printable ASCII character. *)
Definition payload_char (c : ascii) : bool :=
  let n := nat_of_ascii c in
  ((n =? 10) || (32 <=? n) && (n <=? 126))%nat.

Fixpoint plain_text (s : string) : bool :=
  match s with
  | EmptyString => true
  | String c s' => payload_char c && plain_text s'
  end.

(** ** Locators *)

(** The locator of an entry. *)
Definition entry_locator (e : entry) : scalar :=
  match e with
  | Keyed current_path _ _ => current_path
  | Indexed current_path _ => SStr current_path
  end.

(** ** Where a cached tree comes from *)

(** Every cached tree is what the parser yielded for a text that the network
    served for the catalog URL of its identifier. *)
Definition cache_provenance (requests_get : nat -> string -> http_outcome)
    (yaml_safe_load : string -> yaml_outcome) (st : state) : Prop :=
  forall k tree,
    specs_cache st !! k = Some tree ->
    exists url n text,
      assoc_get TOAST_SPECS k = Some url
      /\ requests_get n url = HttpOk text
      /\ yaml_safe_load text = YamlOk tree.

(** The text has a lower-case ASCII letter. *)
Fixpoint has_lower (s : string) : bool :=
  match s with
  | EmptyString => false
  | String c s' =>
      (let n := nat_of_ascii c in ((97 <=? n) && (n <=? 122))%nat) || has_lower s'
  end.
(** * Properties *)

(** ** Substring facts used for the error messages *)

Lemma prefix_append (a b : string) : String.prefix a (a +:+ b) = true.
Proof.
  induction a as [|c a IH]; simpl.
  - by destruct b.
  - destruct (ascii_dec c c); [exact IH | done].
Qed.

Lemma append_empty_r (s : string) : s +:+ "" = s.
Proof. induction s as [|c s IH]; simpl; congruence. Qed.

Lemma append_assoc (a b c : string) : (a +:+ b) +:+ c = a +:+ b +:+ c.
Proof. induction a as [|x a IH]; simpl; congruence. Qed.

Lemma str_contains_here (a b : string) : str_contains a (a +:+ b) = true.
Proof.
  pose proof (prefix_append a b) as H.
  destruct (a +:+ b); simpl in *; rewrite H; done.
Qed.

Lemma str_contains_skip (a s t : string) :
  str_contains a t = true -> str_contains a (s +:+ t) = true.
Proof.
  intros H. induction s as [|c s IH]; simpl; [exact H|].
  rewrite IH. apply orb_true_r.
Qed.

Lemma str_contains_middle (a s t : string) :
  str_contains a (s +:+ a +:+ t) = true.
Proof. apply str_contains_skip, str_contains_here. Qed.

Lemma str_contains_join (sep k : string) (ks : list string) :
  In k ks -> str_contains k (join sep ks) = true.
Proof.
  induction ks as [|k' ks IH]; [done|].
  intros [->|Hin].
  - destruct ks as [|k'' ks]; simpl.
    + rewrite <- (append_empty_r k) at 2. apply str_contains_here.
    + apply str_contains_here.
  - destruct ks as [|k'' ks]; [done|].
    change (join sep (k' :: k'' :: ks)) with (k' +:+ sep +:+ join sep (k'' :: ks)).
    apply str_contains_skip, str_contains_skip, IH, Hin.
Qed.

(** ** Serialized text is read back *)

(** *** Strings *)

Lemma scan_string_escape_char (c : ascii) (s : string) :
  scan_string (json_escape_char c +:+ s) = scanned c (scan_string s).
Proof. destruct c as [[] [] [] [] [] [] [] []]; reflexivity. Qed.

Lemma scan_string_escape (s rest : string) :
  scan_string (json_escape s +:+ String dquote rest) = Some (s, rest).
Proof.
  induction s as [|c s IH]; [done|].
  simpl. rewrite append_assoc, scan_string_escape_char, IH. done.
Qed.

(** *** Integers *)

Lemma delimits_not_digit (rest : string) :
  delimits rest = true -> span_digits rest = (EmptyString, rest).
Proof.
  destruct rest as [|c rest]; [done|]. simpl.
  intros [Hc|Hc]%orb_true_iff; apply Ascii.eqb_eq in Hc; by subst.
Qed.

Lemma delimits_ends_integer (rest : string) :
  delimits rest = true -> ends_integer rest = true.
Proof.
  destruct rest as [|c rest]; [done|]. simpl.
  intros [Hc|Hc]%orb_true_iff; apply Ascii.eqb_eq in Hc; by subst.
Qed.

Lemma span_digits_uint (u : Decimal.uint) (rest : string) :
  delimits rest = true ->
  span_digits (NilEmpty.string_of_uint u +:+ rest)
  = (NilEmpty.string_of_uint u, rest).
Proof.
  intros Hrest.
  induction u as [|u IH|u IH|u IH|u IH|u IH|u IH|u IH|u IH|u IH|u IH];
    [by apply delimits_not_digit|..];
    cbn [NilEmpty.string_of_uint String.append span_digits];
    rewrite IH; reflexivity.
Qed.

(** The digits of a positive number: at least one, the first one not zero. *)
Lemma to_uint_head (p : positive) :
  exists c t, NilEmpty.string_of_uint (Pos.to_uint p) = String c t
              /\ is_digit c = true
              /\ leading_zero (String c t) = false.
Proof.
  pose proof (Unsigned.to_uint_nonzero p) as Hnz.
  assert (Hnorm : Decimal.unorm (Pos.to_uint p) = Pos.to_uint p).
  { rewrite <- Unsigned.to_of. by rewrite Unsigned.of_to. }
  assert (Hhead : forall u', Pos.to_uint p <> Decimal.D0 u').
  { intros u' Hu. rewrite Hu, unorm_D0 in Hnorm.
    assert (Hcases : u' = Decimal.Nil \/ u' <> Decimal.Nil)
      by (destruct u'; auto; right; discriminate).
    destruct Hcases as [->|Hne]; [by apply Hnz|].
    pose proof (nb_digits_unorm u' Hne) as Hlen.
    rewrite Hnorm in Hlen. simpl in Hlen. lia. }
  pose proof (Unsigned.to_uint_nonnil p) as Hnn.
  destruct (Pos.to_uint p) as [|u|u|u|u|u|u|u|u|u|u]; try done.
  1: by destruct (Hhead u).
  all: eexists _, _; split; [reflexivity|split; [reflexivity|]].
  all: by destruct u.
Qed.

Lemma digit_not_minus (c : ascii) : is_digit c = true -> Ascii.eqb c "-" = false.
Proof. destruct c as [[] [] [] [] [] [] [] []]; done. Qed.

Lemma scan_number_unsigned (c : ascii) (t rest : string) :
  is_digit c = true ->
  leading_zero (String c t) = false ->
  span_digits (String c t +:+ rest) = (String c t, rest) ->
  ends_integer rest = true ->
  scan_number (String c t +:+ rest)
  = match NilZero.int_of_string (String c t) with
    | Some d => Some (Z.of_int d, rest)
    | None => None
    end.
Proof.
  intros Hd Hlz Hspan Hend. unfold scan_number.
  cbn [String.append]. rewrite (digit_not_minus c Hd).
  change (String c (t +:+ rest)) with (String c t +:+ rest).
  rewrite Hspan, Hlz, Hend. reflexivity.
Qed.

Lemma scan_number_signed (c : ascii) (t rest : string) :
  is_digit c = true ->
  leading_zero (String c t) = false ->
  span_digits (String c t +:+ rest) = (String c t, rest) ->
  ends_integer rest = true ->
  scan_number (String "-" (String c t) +:+ rest)
  = match NilZero.int_of_string (String "-" (String c t)) with
    | Some d => Some (Z.of_int d, rest)
    | None => None
    end.
Proof.
  intros Hd Hlz Hspan Hend. unfold scan_number.
  cbn [String.append Ascii.eqb Bool.eqb].
  change (String c (t +:+ rest)) with (String c t +:+ rest).
  rewrite Hspan, Hlz, Hend. reflexivity.
Qed.

Lemma scan_number_str_int (z : Z) (rest : string) :
  delimits rest = true ->
  scan_number (str_int z +:+ rest) = Some (z, rest).
Proof.
  intros Hrest. unfold str_int.
  pose proof (delimits_ends_integer rest Hrest) as Hend.
  destruct z as [|p|p]; simpl Z.to_int.
  - change (NilZero.string_of_int (Decimal.Pos (Decimal.D0 Decimal.Nil))) with "0".
    rewrite scan_number_unsigned; try done.
    cbn [String.append span_digits is_digit]. simpl.
    by rewrite (delimits_not_digit rest Hrest).
  - destruct (to_uint_head p) as (c & t & Hs & Hd & Hlz).
    pose proof (Unsigned.to_uint_nonnil p) as Hnn.
    assert (Htext : NilZero.string_of_int (Decimal.Pos (Pos.to_uint p)) = String c t).
    { rewrite <- Hs. simpl. by destruct (Pos.to_uint p). }
    pose proof (NilZero.isi (Decimal.Pos (Pos.to_uint p))) as Hisi.
    rewrite Htext in *.
    rewrite scan_number_unsigned; try done.
    + rewrite Hisi; [|congruence|congruence].
      change (Decimal.Pos (Pos.to_uint p)) with (Z.to_int (Z.pos p)).
      by rewrite DecimalZ.of_to.
    + rewrite <- Hs. by apply span_digits_uint.
  - destruct (to_uint_head p) as (c & t & Hs & Hd & Hlz).
    pose proof (Unsigned.to_uint_nonnil p) as Hnn.
    assert (Htext : NilZero.string_of_int (Decimal.Neg (Pos.to_uint p))
                    = String "-" (String c t)).
    { rewrite <- Hs. simpl. by destruct (Pos.to_uint p). }
    pose proof (NilZero.isi (Decimal.Neg (Pos.to_uint p))) as Hisi.
    rewrite Htext in *.
    rewrite scan_number_signed; try done.
    + rewrite Hisi; [|congruence|congruence].
      change (Decimal.Neg (Pos.to_uint p)) with (Z.to_int (Z.neg p)).
      by rewrite DecimalZ.of_to.
    + rewrite <- Hs. by apply span_digits_uint.
Qed.

(** *** The first character of a serialized value *)

Lemma str_int_head (z : Z) :
  exists c t, str_int z = String c t /\ number_head c = true.
Proof.
  unfold str_int. destruct z as [|p|p]; simpl Z.to_int.
  - by eexists _, _.
  - destruct (to_uint_head p) as (c & t & Hs & Hd & _).
    exists c, t. split.
    + rewrite <- Hs. simpl. by destruct (Pos.to_uint p).
    + unfold number_head. rewrite Hd. apply orb_true_r.
  - by eexists _, _.
Qed.

Lemma number_head_value_head (c : ascii) :
  number_head c = true -> value_head c = true.
Proof. destruct c as [[] [] [] [] [] [] [] []]; done. Qed.

Lemma json_encode_head (level : nat) (v : value) :
  exists c t, json_encode level v = String c t /\ value_head c = true.
Proof.
  destruct v as [[|[]|z|s]|[|x l]|[|m d]]; try (by eexists _, _).
  destruct (str_int_head z) as (c & t & Hs & Hc).
  exists c, t. split; [exact Hs|]. by apply number_head_value_head.
Qed.

(** *** White space *)

Lemma skip_ws_spaces (n : nat) (s : string) : skip_ws (spaces n +:+ s) = skip_ws s.
Proof. induction n as [|n IH]; [done|]. exact IH. Qed.

Lemma skip_ws_newline_indent (level : nat) (s : string) :
  skip_ws (newline_indent level +:+ s) = skip_ws s.
Proof. unfold newline_indent. cbn [String.append]. apply skip_ws_spaces. Qed.

Lemma skip_ws_value_head (c : ascii) (t : string) :
  value_head c = true -> skip_ws (String c t) = String c t.
Proof.
  unfold value_head. intros H. simpl.
  destruct (is_ws c); [done|reflexivity].
Qed.

Lemma skip_ws_json_encode (level : nat) (v : value) (s : string) :
  skip_ws (json_encode level v +:+ s) = json_encode level v +:+ s.
Proof.
  destruct (json_encode_head level v) as (c & t & -> & Hc).
  by apply skip_ws_value_head.
Qed.

(** *** Scalars *)

Lemma parse_value_number_head (fuel : nat) (c : ascii) (t : string) :
  number_head c = true ->
  parse_value (S fuel) (String c t)
  = match scan_number (String c t) with
    | Some (z, r) => Some (VInt z, r)
    | None => None
    end.
Proof. destruct c as [[] [] [] [] [] [] [] []]; try done. Qed.

Lemma parse_value_quote (fuel : nat) (r : string) :
  parse_value (S fuel) (String dquote r)
  = match scan_string r with
    | Some (t, r') => Some (VStr t, r')
    | None => None
    end.
Proof. reflexivity. Qed.

Lemma parse_value_scalar (fuel : nat) (x : scalar) (rest : string) :
  delimits rest = true ->
  parse_value (S fuel) (json_scalar x +:+ rest) = Some (VScalar x, rest).
Proof.
  intros Hrest. destruct x as [|[]|z|s]; try reflexivity.
  - destruct (str_int_head z) as (c & t & Hs & Hc).
    pose proof (scan_number_str_int z rest Hrest) as Hscan.
    rewrite Hs in *. cbn [json_scalar]. rewrite Hs.
    cbn [String.append] in *.
    by rewrite parse_value_number_head, Hscan.
  - change (json_scalar (SStr s) +:+ rest)
      with (String dquote ((json_escape s +:+ String dquote EmptyString) +:+ rest)).
    rewrite parse_value_quote, append_assoc.
    change (String dquote EmptyString +:+ rest) with (String dquote rest).
    by rewrite scan_string_escape.
Qed.

(** *** Arrays *)

Lemma parse_items_step (fuel : nat) (s : string) :
  parse_items (S fuel) s
  = match parse_value fuel s with
    | None => None
    | Some (v, r) =>
        match skip_ws r with
        | EmptyString => None
        | String c r' =>
            if Ascii.eqb c "]" then Some ([v], r')
            else if Ascii.eqb c "," then
              match parse_items fuel (skip_ws r') with
              | Some (vs, r'') => Some (v :: vs, r'')
              | None => None
              end
            else None
        end
    end.
Proof. reflexivity. Qed.

Lemma parse_items_encode (level : nat) (l : list value) :
  Forall reads_back l ->
  forall x rest fuel,
    reads_back x ->
    (list_sum (map (fun y => S (need y)) (x :: l)) <= fuel)%nat ->
    parse_items fuel
      (json_encode (S level) x +:+
       encode_more (json_encode (S level)) ("," +:+ newline_indent (S level)) l +:+
       newline_indent level +:+ String "]" rest)
    = Some (x :: l, rest).
Proof.
  induction 1 as [|y l Hy Hl IH]; intros x rest fuel Hx Hfuel.
  - destruct fuel as [|fuel]; [simpl in Hfuel; lia|].
    rewrite parse_items_step. cbn [encode_more String.append].
    rewrite Hx; [|simpl in Hfuel; lia|done].
    by rewrite skip_ws_newline_indent.
  - destruct fuel as [|fuel]; [simpl in Hfuel; lia|].
    rewrite parse_items_step. cbn [encode_more String.append].
    rewrite !append_assoc. cbn [String.append].
    rewrite Hx; [|simpl in Hfuel; lia|done].
    cbn [skip_ws is_ws Ascii.eqb Bool.eqb orb].
    rewrite skip_ws_newline_indent, skip_ws_json_encode.
    rewrite IH; [done|exact Hy|].
    simpl in Hfuel |- *. lia.
Qed.

(** *** Objects *)

Lemma parse_members_step (fuel : nat) (r0 : string) :
  parse_members (S fuel) (String dquote r0)
  = match scan_string r0 with
    | None => None
    | Some (k, r1) =>
        match skip_ws r1 with
        | EmptyString => None
        | String colon r2 =>
            if negb (Ascii.eqb colon ":") then None
            else
              match parse_value fuel (skip_ws r2) with
              | None => None
              | Some (v, r3) =>
                  match skip_ws r3 with
                  | EmptyString => None
                  | String c r4 =>
                      if Ascii.eqb c "}" then Some ([(SStr k, v)], r4)
                      else if Ascii.eqb c "," then
                        match parse_members fuel (skip_ws r4) with
                        | Some (ms, r5) => Some ((SStr k, v) :: ms, r5)
                        | None => None
                        end
                      else None
                  end
              end
        end
    end.
Proof. reflexivity. Qed.

(** The text of a member whose key is a string, laid out for the reader. *)
Lemma encode_member_text (level : nat) (k : string) (v : value) (tail : string) :
  encode_member (json_encode level) (SStr k, v) +:+ tail
  = String dquote (json_escape k +:+ String dquote
      (String ":" (String " " (json_encode level v +:+ tail)))).
Proof.
  unfold encode_member, json_string. cbn [fst snd json_key String.append].
  rewrite !append_assoc. cbn [String.append]. reflexivity.
Qed.

Lemma parse_members_encode (level : nat) (d : list (scalar * value)) :
  Forall member_ok d ->
  forall member rest fuel,
    member_ok member ->
    (list_sum (map (fun m => S (need (snd m))) (member :: d)) <= fuel)%nat ->
    parse_members fuel
      (encode_member (json_encode (S level)) member +:+
       encode_more_members (json_encode (S level))
         ("," +:+ newline_indent (S level)) d +:+
       newline_indent level +:+ String "}" rest)
    = Some (member :: d, rest).
Proof.
  induction 1 as [|m' d Hm' Hd IH]; intros [k v] rest fuel [Hk Hv] Hfuel;
    destruct k as [| | |k]; try done; simpl in Hv.
  - destruct fuel as [|fuel]; [simpl in Hfuel; lia|].
    rewrite encode_member_text, parse_members_step, scan_string_escape.
    cbn [skip_ws is_ws Ascii.eqb Bool.eqb orb negb].
    rewrite skip_ws_json_encode. cbn [encode_more_members String.append].
    rewrite Hv; [|simpl in Hfuel; lia|done].
    by rewrite skip_ws_newline_indent.
  - destruct fuel as [|fuel]; [simpl in Hfuel; lia|].
    rewrite encode_member_text, parse_members_step, scan_string_escape.
    cbn [skip_ws is_ws Ascii.eqb Bool.eqb orb negb].
    rewrite skip_ws_json_encode. cbn [encode_more_members String.append].
    rewrite !append_assoc. cbn [String.append].
    rewrite Hv; [|simpl in Hfuel; lia|done].
    cbn [skip_ws is_ws Ascii.eqb Bool.eqb orb].
    rewrite skip_ws_newline_indent.
    destruct m' as [k' v']. destruct Hm' as [Hk' Hv'].
    destruct k' as [| | |k']; try done.
    rewrite encode_member_text.
    cbn [skip_ws is_ws Ascii.eqb Bool.eqb orb dquote].
    rewrite <- encode_member_text.
    rewrite IH; [done|done|].
    simpl in Hfuel |- *. lia.
Qed.

(** *** Building the mapping from its members *)

Lemma dict_set_fresh (d : list (scalar * value)) (k : scalar) (v : value) :
  dict_mem d k = false -> dict_set d k v = d ++ [(k, v)].
Proof.
  unfold dict_mem. induction d as [|[k' v'] d IH]; [done|]. simpl.
  destruct (scalar_eqb k' k); [done|]. intros H. by rewrite IH.
Qed.

Lemma scalar_eqb_sym (a b : scalar) : scalar_eqb a b = scalar_eqb b a.
Proof.
  destruct a as [|a|x|s], b as [|b|y|t]; unfold scalar_eqb, scalar_as_int;
    try done; try apply Z.eqb_sym; apply String.eqb_sym.
Qed.

Lemma dict_mem_In (d : list (scalar * value)) (k k' : scalar) (v' : value) :
  In (k', v') d -> scalar_eqb k' k = true -> dict_mem d k = true.
Proof.
  unfold dict_mem. induction d as [|[k0 v0] d IH]; [done|].
  intros [[= -> ->]|Hin] Heq; simpl.
  - by rewrite Heq.
  - destruct (scalar_eqb k0 k); [done|]. by apply IH.
Qed.

Lemma dict_mem_app (d1 d2 : list (scalar * value)) (k : scalar) :
  dict_mem (d1 ++ d2) k = dict_mem d1 k || dict_mem d2 k.
Proof.
  unfold dict_mem. induction d1 as [|[k' v'] d1 IH]; simpl.
  - by destruct (dict_get d2 k).
  - by destruct (scalar_eqb k' k).
Qed.

Lemma dict_of_pairs_distinct (d : list (scalar * value)) :
  keys_distinct d = true -> dict_of_pairs d = d.
Proof.
  unfold dict_of_pairs.
  assert (Hgen : forall acc,
             keys_distinct d = true ->
             (forall k v, In (k, v) d -> dict_mem acc k = false) ->
             fold_left (fun d0 member => dict_set d0 (fst member) (snd member)) d acc
             = acc ++ d).
  { induction d as [|[k v] d IH]; intros acc Hdist Hfresh.
    - by rewrite app_nil_r.
    - simpl in *. apply andb_true_iff in Hdist as [Hk Hdist].
      rewrite dict_set_fresh by (apply (Hfresh k v); by left).
      rewrite IH; [by rewrite <- app_assoc|exact Hdist|].
      intros k' v' Hin. rewrite dict_mem_app.
      rewrite (Hfresh k' v') by (by right). simpl.
      unfold dict_mem. simpl.
      destruct (scalar_eqb k k') eqn:Heq; [|done].
      apply negb_true_iff in Hk.
      rewrite (dict_mem_In d k k' v' Hin) in Hk; [done|].
      by rewrite scalar_eqb_sym. }
  intros Hdist. by apply Hgen.
Qed.

(** *** Values *)

Lemma value_nested_ind (P : value -> Prop) :
  (forall x, P (VScalar x)) ->
  (forall l, Forall P l -> P (VList l)) ->
  (forall d, Forall (fun member => P (snd member)) d -> P (VDict d)) ->
  forall v, P v.
Proof.
  intros Hscalar Hlist Hdict. fix IH 1. intros [x|l|d].
  - apply Hscalar.
  - apply Hlist. induction l as [|y l IHl]; constructor; [apply IH|exact IHl].
  - apply Hdict. induction d as [|[k y] d IHd]; constructor; [apply IH|exact IHd].
Qed.

Lemma parse_value_bracket (fuel : nat) (r : string) :
  parse_value (S fuel) (String "[" r)
  = match skip_ws r with
    | EmptyString => None
    | String c' r' =>
        if Ascii.eqb c' "]" then Some (VList [], r')
        else
          match parse_items fuel (String c' r') with
          | Some (items, r'') => Some (VList items, r'')
          | None => None
          end
    end.
Proof. reflexivity. Qed.

Lemma parse_value_brace (fuel : nat) (r : string) :
  parse_value (S fuel) (String "{" r)
  = match skip_ws r with
    | EmptyString => None
    | String c' r' =>
        if Ascii.eqb c' "}" then Some (VDict [], r')
        else
          match parse_members fuel (String c' r') with
          | Some (pairs, r'') => Some (VDict (dict_of_pairs pairs), r'')
          | None => None
          end
    end.
Proof. reflexivity. Qed.

Lemma value_head_not_closing (c : ascii) :
  value_head c = true -> Ascii.eqb c "]" = false /\ Ascii.eqb c "}" = false.
Proof.
  unfold value_head. intros H.
  destruct (Ascii.eqb c "]"), (Ascii.eqb c "}"), (is_ws c); done.
Qed.

Lemma json_encode_reads_back (v : value) :
  well_formed v = true -> string_keyed v = true -> reads_back v.
Proof.
  induction v as [x|l IH|d IH] using value_nested_ind; intros Hwf Hsk.
  - intros level rest [|fuel] Hfuel Hrest; [simpl in Hfuel; lia|].
    by apply parse_value_scalar.
  - assert (Hall : Forall reads_back l).
    { simpl in Hwf, Hsk.
      rewrite forallb_forall in Hwf. rewrite forallb_forall in Hsk.
      rewrite Forall_forall in IH |- *. intros x Hx.
      apply list_elem_of_In in Hx.
      apply IH; [by apply list_elem_of_In|by apply Hwf|by apply Hsk]. }
    intros level rest [|fuel] Hfuel Hrest; [simpl in Hfuel; lia|].
    destruct l as [|x l]; [reflexivity|].
    apply Forall_cons in Hall as [Hx Hl].
    cbn [json_encode String.append]. rewrite !append_assoc.
    rewrite parse_value_bracket, skip_ws_newline_indent, skip_ws_json_encode.
    destruct (json_encode_head (S level) x) as (c & t & Hc & Hhead).
    destruct (value_head_not_closing c Hhead) as [Hnb _].
    rewrite Hc at 1. cbn [String.append]. rewrite Hnb.
    change (String c (t +:+ ?s)) with (String c t +:+ s). rewrite <- Hc.
    cbn [String.append].
    pose proof (parse_items_encode level l Hl x rest fuel Hx) as Hitems.
    cbn [String.append] in Hitems.
    rewrite Hitems; [done|]. simpl in Hfuel |- *. lia.
  - assert (Hall : Forall member_ok d).
    { simpl in Hwf, Hsk. apply andb_true_iff in Hwf as [_ Hwf].
      rewrite forallb_forall in Hwf. rewrite forallb_forall in Hsk.
      rewrite Forall_forall in IH |- *. intros m Hm.
      apply list_elem_of_In in Hm.
      specialize (Hsk m Hm). apply andb_true_iff in Hsk as [Hk Hsk].
      split; [exact Hk|].
      apply IH; [by apply list_elem_of_In|by apply Hwf|exact Hsk]. }
    intros level rest [|fuel] Hfuel Hrest; [simpl in Hfuel; lia|].
    destruct d as [|m d]; [reflexivity|].
    apply Forall_cons in Hall as [Hm Hd].
    cbn [json_encode String.append]. rewrite !append_assoc.
    rewrite parse_value_brace, skip_ws_newline_indent.
    destruct m as [k x]. destruct Hm as [Hk Hx].
    destruct k as [| | |k]; try done.
    rewrite encode_member_text.
    cbn [skip_ws is_ws Ascii.eqb Bool.eqb orb dquote].
    change (String "034" ?s) with (String dquote s).
    rewrite <- encode_member_text. cbn [String.append].
    pose proof (parse_members_encode level d Hd (SStr k, x) rest fuel) as Hmembers.
    cbn [String.append] in Hmembers.
    rewrite Hmembers; [|by split|simpl in Hfuel |- *; lia].
    rewrite dict_of_pairs_distinct; [done|].
    simpl in Hwf. by apply andb_true_iff in Hwf as [Hdist _].
Qed.

(** *** The fuel is enough *)

Lemma length_append (a b : string) :
  String.length (a +:+ b) = (String.length a + String.length b)%nat.
Proof. induction a as [|c a IH]; simpl; [done|]. by rewrite IH. Qed.

Lemma need_le_length (v : value) :
  forall level, (need v <= String.length (json_encode level v))%nat.
Proof.
  induction v as [x|l IH|d IH] using value_nested_ind; intros level.
  - destruct (json_encode_head level (VScalar x)) as (c & t & -> & _).
    simpl. lia.
  - destruct l as [|x l]; [simpl; lia|].
    apply Forall_cons in IH as [Hx Hl].
    cbn [json_encode need map list_sum].
    rewrite !length_append. cbn [String.length].
    specialize (Hx (S level)).
    assert (Hmore : (list_sum (map (fun y => S (need y)) l)
                     <= String.length
                          (encode_more (json_encode (S level))
                             ("," +:+ newline_indent (S level)) l))%nat).
    { induction Hl as [|y l Hy Hl IHl]; [done|].
      cbn [encode_more map list_sum]. rewrite !length_append.
      specialize (Hy (S level)). cbn [String.append String.length] in IHl |- *.
      unfold list_sum in *. cbn [fold_right]. lia. }
    unfold list_sum in *. cbn [fold_right String.append] in Hmore |- *. lia.
  - destruct d as [|[k x] d]; [simpl; lia|].
    apply Forall_cons in IH as [Hx Hd].
    cbn [json_encode need map list_sum snd].
    unfold encode_member at 1. cbn [fst snd].
    rewrite !length_append. cbn [String.length].
    specialize (Hx (S level)). simpl in Hx.
    assert (Hmore : (list_sum (map (fun m => S (need (snd m))) d)
                     <= String.length
                          (encode_more_members (json_encode (S level))
                             ("," +:+ newline_indent (S level)) d))%nat).
    { induction Hd as [|[k' y] d Hy Hd IHd]; [done|].
      cbn [encode_more_members map list_sum snd]. unfold encode_member at 1.
      cbn [fst snd]. rewrite !length_append.
      specialize (Hy (S level)). simpl in Hy.
      cbn [String.append String.length] in IHd |- *.
      unfold list_sum in *. cbn [fold_right]. lia. }
    unfold list_sum in *. cbn [fold_right String.append] in Hmore |- *. lia.
Qed.

Lemma dumps_loads (v : value) :
  well_formed v = true -> string_keyed v = true -> round_trips v.
Proof.
  intros Hwf Hsk. unfold round_trips, json_loads, json_dumps.
  pose proof (skip_ws_json_encode 0 v EmptyString) as Hskip.
  rewrite append_empty_r in Hskip. rewrite Hskip.
  pose proof (json_encode_reads_back v Hwf Hsk 0%nat EmptyString
                (S (String.length (json_encode 0 v)))) as Hread.
  rewrite append_empty_r in Hread.
  rewrite Hread; [done| |done].
  pose proof (need_le_length v 0). lia.
Qed.

(** ** How [fetch_yaml_spec] ends *)

#[local] Arguments assoc_get : simpl never.

Section FetchFacts.

Variable requests_get : nat -> string -> http_outcome.
Variable yaml_safe_load : string -> yaml_outcome.

Lemma fetch_yaml_spec_outcome (spec_name : arg) (st : state) :
  fetch_outcome requests_get yaml_safe_load spec_name st
    (fetch_yaml_spec requests_get yaml_safe_load spec_name st).
Proof.
  unfold fetch_yaml_spec, mbind, M_bind, bind, cache_get.
  destruct spec_name as [k|]; simpl.
  - destruct (specs_cache st !! k) as [t|] eqn:Hc.
    + by eapply fetch_hit.
    + destruct (assoc_get TOAST_SPECS k) as [url|] eqn:Hu.
      * unfold bind, http_get.
        destruct (requests_get (length (requested st)) url) as [text|reason] eqn:Hn.
        -- unfold safe_load. simpl.
           destruct (yaml_safe_load text) as [v|reason] eqn:Hy.
           ++ unfold cache_put, mret, M_ret, ret. simpl. by eapply fetch_stored.
           ++ by eapply fetch_malformed.
        -- by eapply fetch_transport.
      * by apply fetch_unknown.
  - by apply fetch_unknown.
Qed.

Lemma assoc_get_None {A} (l : list (string * A)) (k : string) :
  ~ In k (map fst l) -> assoc_get l k = None.
Proof.
  induction l as [|[k' a] l IH]; [done|].
  unfold assoc_get; fold (@assoc_get A). simpl. intros Hnot.
  destruct (String.eqb_spec k' k) as [->|Hne].
  - exfalso. apply Hnot. by left.
  - apply IH. intros Hin. apply Hnot. by right.
Qed.

Lemma assoc_get_Some {A} (l : list (string * A)) (k : string) (a : A) :
  assoc_get l k = Some a -> In k (map fst l).
Proof.
  induction l as [|[k' a'] l IH]; [done|].
  unfold assoc_get; fold (@assoc_get A). simpl.
  destruct (String.eqb_spec k' k) as [->|Hne]; [by left|].
  intros H. right. by apply IH.
Qed.

(** C2: when [fetch_yaml_spec id] has returned a tree, the call that follows
    returns the same tree and leaves the state as it is: no URL is added to
    the requests made, nothing is parsed, and the answer does not depend on
    what the network or the parser would say. *)
Theorem fetch_twice_same_tree (id : string) (st st1 : state) (tree : value) :
  fetch_yaml_spec requests_get yaml_safe_load (Some id) st = (Ok tree, st1) ->
  specs_cache st1 !! id = Some tree
  /\ forall requests_get' yaml_safe_load',
       fetch_yaml_spec requests_get' yaml_safe_load' (Some id) st1 = (Ok tree, st1).
Proof.
  intros Hfetch.
  assert (Hc : specs_cache st1 !! id = Some tree).
  { pose proof (fetch_yaml_spec_outcome (Some id) st) as Hout.
    rewrite Hfetch in Hout.
    inversion Hout as [k t Hk Hc| | | |k url text t Hk Hc Hu Hn Hy]; simplify_eq.
    - exact Hc.
    - simpl. apply lookup_insert_eq. }
  split; [exact Hc|].
  intros net' yaml'.
  unfold fetch_yaml_spec, mbind, M_bind, bind, cache_get. simpl.
  by rewrite Hc.
Qed.

(** C3: for an identifier that is neither cached nor a key of the catalog,
    [fetch_yaml_spec] raises the [ValueError] whose message shows the
    identifier and every key of the catalog; the state is untouched. *)
Theorem unknown_spec_lists_catalog (id : string) (st : state) :
  ~ In id catalog_keys ->
  specs_cache st !! id = None ->
  fetch_yaml_spec requests_get yaml_safe_load (Some id) st
  = (Raise (ValueError (unknown_spec_message (Some id))), st)
  /\ str_contains id (unknown_spec_message (Some id)) = true
  /\ forall k, In k catalog_keys ->
       str_contains k (unknown_spec_message (Some id)) = true.
Proof.
  intros Hnot Hmiss. split; [|split].
  - unfold fetch_yaml_spec, mbind, M_bind, bind, cache_get. simpl.
    rewrite Hmiss. by rewrite (assoc_get_None TOAST_SPECS id Hnot).
  - unfold unknown_spec_message. apply (str_contains_middle id "Unknown spec: ").
  - intros k Hk. unfold unknown_spec_message.
    apply (str_contains_skip k "Unknown spec: ").
    apply str_contains_skip.
    apply (str_contains_skip k ". Available specs: ").
    by apply str_contains_join.
Qed.

(** C4: a call of [fetch_yaml_spec] that raises (unknown identifier,
    transport failure or malformed document) leaves [specs_cache] as it was
    and holds no entry for the identifier; for a catalog identifier the call
    that follows goes to the network again. *)
Theorem failed_fetch_keeps_cache (spec_name : arg) (st st' : state) (e : exn) :
  fetch_yaml_spec requests_get yaml_safe_load spec_name st = (Raise e, st') ->
  specs_cache st' = specs_cache st
  /\ spec_name ≫= (fun k => specs_cache st' !! k) = None
  /\ forall id url,
       spec_name = Some id -> assoc_get TOAST_SPECS id = Some url ->
       requested (snd (fetch_yaml_spec requests_get yaml_safe_load (Some id) st'))
       = url :: requested st'.
Proof.
  intros Hfetch.
  pose proof (fetch_yaml_spec_outcome spec_name st) as Hout.
  rewrite Hfetch in Hout.
  assert (Hsame : specs_cache st' = specs_cache st)
    by (inversion Hout; simplify_eq; done).
  assert (Hmiss : spec_name ≫= (fun k => specs_cache st' !! k) = None)
    by (rewrite Hsame; inversion Hout; simplify_eq; done).
  split; [exact Hsame|]. split; [exact Hmiss|].
  intros id url -> Hurl. simpl in Hmiss.
  pose proof (fetch_yaml_spec_outcome (Some id) st') as Hnext.
  inversion Hnext as [k t Hk Hc|Hc Hu|k u r Hk Hc Hu Hn|k u x r Hk Hc Hu Hn Hy
                     |k u x t Hk Hc Hu Hn Hy]; simplify_eq; try done.
  simpl in Hu. congruence.
Qed.

End FetchFacts.

Lemma fetch_twice_same_tree_witness :
  let st1 := snd (fetch_yaml_spec (net_serving "paths: {}")
                    (yaml_yielding doc_endpoint_example) (Some "orders") initial_state) in
  specs_cache st1 !! "orders" = Some doc_endpoint_example
  /\ forall requests_get' yaml_safe_load',
       fetch_yaml_spec requests_get' yaml_safe_load' (Some "orders") st1
       = (Ok doc_endpoint_example, st1).
Proof.
  apply (fetch_twice_same_tree (net_serving "paths: {}")
           (yaml_yielding doc_endpoint_example) "orders" initial_state).
  reflexivity.
Defined.

Lemma unknown_spec_lists_catalog_witness :
  fetch_yaml_spec net_down yaml_rejecting (Some "payments") initial_state
  = (Raise (ValueError (unknown_spec_message (Some "payments"))), initial_state)
  /\ str_contains "payments" (unknown_spec_message (Some "payments")) = true
  /\ forall k, In k catalog_keys ->
       str_contains k (unknown_spec_message (Some "payments")) = true.
Proof.
  apply (unknown_spec_lists_catalog net_down yaml_rejecting "payments" initial_state).
  - intros Hin. vm_compute in Hin. intuition discriminate.
  - reflexivity.
Defined.

Lemma failed_fetch_keeps_cache_witness :
  let st' := snd (fetch_yaml_spec net_down yaml_rejecting (Some "orders") initial_state) in
  specs_cache st' = specs_cache initial_state
  /\ Some "orders" ≫= (fun k => specs_cache st' !! k) = None
  /\ forall id url,
       Some "orders" = Some id -> assoc_get TOAST_SPECS id = Some url ->
       requested (snd (fetch_yaml_spec net_down yaml_rejecting (Some id) st'))
       = url :: requested st'.
Proof.
  apply (failed_fetch_keeps_cache net_down yaml_rejecting (Some "orders") initial_state _
           (Exception (fetch_failed_message
              "https://doc.toasttab.com/toast-api-specifications/toast-orders-api.yaml"
              "timed out"))).
  reflexivity.
Defined.

(** ** Search *)

(** C1 (as the code behaves): on the example document the search for "foo"
    yields four hits, in this order: [a] (the display form of the mapping,
    [{'foo': 1}], contains the term; the hit shows the placeholder [<dict>]),
    [a.foo], [b] (the display form of the sequence, [['nofoo', 'bar']],
    contains the term; the hit shows [<list>]) and [b[0]]. *)
Theorem search_example_four_hits :
  search_recursive "foo" doc_search_example (SStr "")
  = [VDict [(SStr "path", VStr "a"); (SStr "key", VStr "a");
            (SStr "value", VStr "<dict>")];
     VDict [(SStr "path", VStr "a.foo"); (SStr "key", VStr "foo");
            (SStr "value", VInt 1)];
     VDict [(SStr "path", VStr "b"); (SStr "key", VStr "b");
            (SStr "value", VStr "<list>")];
     VDict [(SStr "path", VStr "b[0]"); (SStr "value", VStr "nofoo")]]
  /\ str_value (VDict [(SStr "foo", VInt 1)]) = "{'foo': 1}"
  /\ str_value (VList [VStr "nofoo"; VStr "bar"]) = "['nofoo', 'bar']".
Proof. repeat split; reflexivity. Qed.

(** The search on the example document does emit a hit at locator [a], and
    its result is not the two hits [a.foo], [b[0]] alone. *)
Lemma search_example_not_two_hits :
  ~ (has_hit_at "a" (search_recursive "foo" doc_search_example (SStr "")) = false
     /\ search_recursive "foo" doc_search_example (SStr "")
        = [VDict [(SStr "path", VStr "a.foo"); (SStr "key", VStr "foo");
                  (SStr "value", VInt 1)];
           VDict [(SStr "path", VStr "b[0]"); (SStr "value", VStr "nofoo")]]).
Proof. intros [Hno _]. vm_compute in Hno. discriminate. Qed.

(** ** Endpoint listing *)

Lemma endpoints_of_methods_skip (path : scalar) (before after : list (scalar * value))
    (method : scalar) (details : value) :
  is_dict details = false ->
  endpoints_of_methods path (before ++ (method, details) :: after)
  = endpoints_of_methods path (before ++ after).
Proof.
  intros Hnd. induction before as [|[m d] before IH]; simpl.
  - by destruct details.
  - destruct d; try exact IH. by rewrite IH.
Qed.

Lemma endpoints_of_methods_cases (path : scalar) (methods : list (scalar * value)) :
  endpoints_of_methods path methods
  = if forallb method_entry_ok methods
    then Ok (endpoints_in path methods)
    else Raise AttributeError.
Proof.
  induction methods as [|[method details] methods IH]; [reflexivity|].
  cbn [endpoints_of_methods forallb endpoints_in flat_map].
  fold (endpoints_in path methods). rewrite IH.
  destruct details as [x|l|d]; cbn [method_entry_ok snd fst is_dict negb orb].
  - by destruct method; destruct (forallb method_entry_ok methods).
  - by destruct method; destruct (forallb method_entry_ok methods).
  - destruct method as [| | |m]; try reflexivity.
    by destruct (forallb method_entry_ok methods).
Qed.

Lemma endpoints_of_paths_cases (items : list (scalar * value)) :
  endpoints_of_paths items
  = if forallb path_entry_ok items
    then Ok (listing (VDict items))
    else Raise AttributeError.
Proof.
  induction items as [|[path methods] items IH]; [reflexivity|].
  cbn [endpoints_of_paths forallb listing flat_map snd fst] in *.
  rewrite IH.
  destruct methods as [x|l|ms]; try reflexivity.
  change (path_entry_ok (path, VDict ms)) with (forallb method_entry_ok ms).
  cbn [py_items]. change (mbind ?f (Ok ?a)) with (f a). cbv beta.
  rewrite endpoints_of_methods_cases.
  destruct (forallb method_entry_ok ms); [|reflexivity].
  by destruct (forallb path_entry_ok items).
Qed.

Lemma listEndpoints_cases (d : list (scalar * value)) :
  listEndpoints (VDict d)
  = match dict_get d (SStr "paths") with
    | None => Ok []
    | Some paths =>
        if listing_shape_ok paths then Ok (listing paths) else Raise AttributeError
    end.
Proof.
  unfold listEndpoints, py_in, dict_mem, py_getitem.
  destruct (dict_get d (SStr "paths")) as [paths|]; [|reflexivity].
  change (mbind ?f (Ok ?a)) with (f a). cbv beta iota.
  change (mbind ?f (Ok ?a)) with (f a). cbv beta.
  destruct paths as [x|l|items]; try reflexivity.
  apply endpoints_of_paths_cases.
Qed.

Lemma endpoints_of_methods_listed (path : scalar) (methods : list (scalar * value)) :
  (forall key details, In (key, VDict details) methods -> is_str key = true) ->
  endpoints_of_methods path methods = Ok (flat_map (entry_endpoints path) methods).
Proof.
  induction methods as [|[key held] methods IH]; intros Hkeys; [reflexivity|].
  cbn [endpoints_of_methods flat_map].
  rewrite IH by (intros k dt Hin; apply (Hkeys k dt); by right).
  destruct held as [x|l|details].
  - by destruct key.
  - by destruct key.
  - assert (Hk : is_str key = true) by (apply (Hkeys key details); by left).
    destruct key; try discriminate. reflexivity.
Qed.

Lemma endpoints_of_paths_listed (items : list (scalar * value)) :
  paths_hold_mappings items -> methods_are_strings items ->
  endpoints_of_paths items = Ok (flat_map path_endpoints items).
Proof.
  induction items as [|[path held] items IH]; intros Hmaps Hkeys; [reflexivity|].
  cbn [endpoints_of_paths flat_map].
  assert (Hheld : is_dict held = true) by (apply (Hmaps path); by left).
  destruct held as [x|l|methods]; try discriminate.
  cbn [py_items path_endpoints].
  change (mbind ?f (Ok ?a)) with (f a). cbv beta.
  rewrite endpoints_of_methods_listed
    by (intros k dt Hin; apply (Hkeys path methods k dt); [by left|done]).
  rewrite IH.
  - reflexivity.
  - intros p h Hin. apply (Hmaps p). by right.
  - intros p ms k dt Hin. apply (Hkeys p ms k dt). by right.
Qed.

Lemma listEndpoints_of_paths (d items : list (scalar * value)) :
  dict_get d (SStr "paths") = Some (VDict items) ->
  listEndpoints (VDict d) = endpoints_of_paths items.
Proof.
  intros Hp. unfold listEndpoints, py_in, dict_mem, py_getitem. rewrite Hp.
  reflexivity.
Qed.

Lemma endpoints_of_paths_skip (before after : list (scalar * value))
    (path key : scalar) (held : value) (ms1 ms2 : list (scalar * value)) :
  is_dict held = false ->
  endpoints_of_paths (before ++ (path, VDict (ms1 ++ (key, held) :: ms2)) :: after)
  = endpoints_of_paths (before ++ (path, VDict (ms1 ++ ms2)) :: after).
Proof.
  intros Hnd. induction before as [|[p h] before IH].
  - cbn [app endpoints_of_paths py_items].
    change (mbind ?f (Ok ?a)) with (f a). cbv beta.
    by rewrite endpoints_of_methods_skip.
  - cbn [app endpoints_of_paths]. by rewrite IH.
Qed.

Lemma listing_shape_ok_holds (items : list (scalar * value)) :
  listing_shape_ok (VDict items) = true ->
  paths_hold_mappings items /\ methods_are_strings items.
Proof.
  cbn [listing_shape_ok]. rewrite forallb_forall. intros Hok. split.
  - intros path held Hin. specialize (Hok _ Hin).
    unfold path_entry_ok in Hok. cbn [snd] in Hok. by destruct held.
  - intros path methods key details Hin Hentry. specialize (Hok _ Hin).
    unfold path_entry_ok in Hok. cbn [snd] in Hok.
    rewrite forallb_forall in Hok. specialize (Hok _ Hentry).
    unfold method_entry_ok in Hok. cbn [snd fst is_dict negb orb] in Hok.
    exact Hok.
Qed.

(** C5 (as the code behaves): what [listEndpoints] returns on a whole tree
    whose root is a mapping.  Without a [paths] key the result is the empty
    list.  When [paths] is a mapping, every path holds a mapping and every
    entry whose value is a mapping has a string for its key, the result is,
    path after path and entry after entry in document order, one endpoint for
    each entry whose value is a mapping, with the method in upper case and
    the empty string for an absent [summary] or [description]; the entries
    whose value is not a mapping contribute nothing.  When [paths] is
    anything else the call raises [AttributeError].  Removing an entry whose
    value is not a mapping from any path never changes the outcome, and the
    example document lists the single endpoint of [get]. *)
Theorem listEndpoints_tolerant (d : list (scalar * value)) :
  (dict_get d (SStr "paths") = None -> listEndpoints (VDict d) = Ok [])
  /\ (forall items,
        dict_get d (SStr "paths") = Some (VDict items) ->
        paths_hold_mappings items -> methods_are_strings items ->
        listEndpoints (VDict d) = Ok (flat_map path_endpoints items))
  /\ (forall paths,
        dict_get d (SStr "paths") = Some paths ->
        (forall items, paths = VDict items ->
                       ~ (paths_hold_mappings items /\ methods_are_strings items)) ->
        listEndpoints (VDict d) = Raise AttributeError)
  /\ (forall before path ms1 key held ms2 after,
        dict_get d (SStr "paths")
        = Some (VDict (before ++ (path, VDict (ms1 ++ (key, held) :: ms2)) :: after)) ->
        is_dict held = false ->
        listEndpoints (VDict d)
        = listEndpoints (doc_of_paths (before ++ (path, VDict (ms1 ++ ms2)) :: after)))
  /\ listEndpoints doc_endpoint_example
     = Ok [Endpoint (SStr "/v2/reports") "GET" (VStr "S") (VStr "")].
Proof.
  repeat split.
  - intros Hno. unfold listEndpoints, py_in, dict_mem. by rewrite Hno.
  - intros items Hp Hmaps Hkeys.
    rewrite (listEndpoints_of_paths d items Hp).
    by apply endpoints_of_paths_listed.
  - intros paths Hp Hshape. rewrite listEndpoints_cases, Hp.
    destruct (listing_shape_ok paths) eqn:Hok; [|reflexivity].
    destruct paths as [x|l|items]; try discriminate.
    destruct (Hshape items eq_refl). by apply listing_shape_ok_holds.
  - intros before path ms1 key held ms2 after Hp Hnd.
    rewrite (listEndpoints_of_paths d _ Hp).
    unfold doc_of_paths. erewrite (listEndpoints_of_paths [_]); [|reflexivity].
    by apply endpoints_of_paths_skip.
Qed.

(** On a document of two paths the listing has the three operations, in
    document order, and neither of the two siblings. *)
Lemma listEndpoints_tolerant_witness :
  listEndpoints (doc_of_paths paths_two_paths)
  = Ok [Endpoint (SStr "/v2/reports") "GET" (VStr "S") (VStr "");
        Endpoint (SStr "/v2/reports") "POST" (VStr "") (VStr "D");
        Endpoint (SStr "/v2/orders") "DELETE" (VStr "") (VStr "")].
Proof.
  apply (proj1 (proj2 (listEndpoints_tolerant [(SStr "paths", VDict paths_two_paths)]))
           paths_two_paths).
  - reflexivity.
  - intros path held Hin. simpl in Hin.
    destruct Hin as [Heq | [Heq | []]]; injection Heq as <- <-; reflexivity.
  - intros path methods key details Hin Hentry. simpl in Hin.
    destruct Hin as [Heq | [Heq | []]]; injection Heq as <- <-; simpl in Hentry;
      repeat (destruct Hentry as [Heq | Hentry]; [by injection Heq as <- | ]);
      destruct Hentry.
Defined.

(** The listing rule fails on a path whose mapping has a mapping under the
    integer key [200]: the entry is one the rule includes, and the call of
    [upper] on its key raises. *)
Lemma listing_rule_fails_on_integer_key : ~ listing_rule paths_integer_method.
Proof. intros [endpoints [Hok _]]. vm_compute in Hok. discriminate. Qed.

Example listEndpoints_integer_key_attribute_error :
  listEndpoints (doc_of_paths paths_integer_method) = Raise AttributeError
  /\ length (included_entries paths_integer_method) = 1%nat.
Proof. split; reflexivity. Qed.

(** ** Endpoint lookup *)

Lemma getEndpoint_unfold (spec_name endpoint_path : arg) (d : list (scalar * value)) :
  getEndpoint spec_name endpoint_path (VDict d)
  = match dict_get d (SStr "paths") with
    | None => Raise (ValueError (endpoint_not_found_message endpoint_path spec_name))
    | Some paths =>
        found ← py_in (arg_scalar endpoint_path) paths;
        if found : bool then py_getitem paths (arg_scalar endpoint_path)
        else Raise (ValueError (endpoint_not_found_message endpoint_path spec_name))
    end.
Proof.
  unfold getEndpoint. simpl. unfold dict_mem.
  destruct (dict_get d (SStr "paths")) as [paths|]; [|done].
  simpl. by destruct (py_in (arg_scalar endpoint_path) paths) as [[]|].
Qed.

(** C6 (as the code behaves): on a tree whose root is a mapping and whose
    [paths] entry, when there is one, is a mapping, [getEndpoint] raises the
    not-found [ValueError] (its message shows the path and the identifier)
    exactly when [paths] is absent or the path is not one of its keys;
    otherwise it returns the sub-tree stored at [paths[path]] as it is. *)
Theorem getEndpoint_on_mapping_paths (spec_name endpoint_path : arg)
    (d : list (scalar * value)) :
  (forall paths, dict_get d (SStr "paths") = Some paths -> is_dict paths = true) ->
  lookup_rule spec_name endpoint_path (VDict d)
  /\ str_contains (str_arg endpoint_path)
       (endpoint_not_found_message endpoint_path spec_name) = true
  /\ str_contains (str_arg spec_name)
       (endpoint_not_found_message endpoint_path spec_name) = true.
Proof.
  intros Hshape.
  split; [|split;
    [apply (str_contains_middle _ "Endpoint ")
    |unfold endpoint_not_found_message;
     apply (str_contains_skip _ "Endpoint "), str_contains_skip,
       (str_contains_middle _ " not found in ")]].
  unfold lookup_rule, endpoint_absent, endpoint_subtree, paths_of.
  rewrite getEndpoint_unfold.
  destruct (dict_get d (SStr "paths")) as [paths|] eqn:Hp.
  - specialize (Hshape paths eq_refl). destruct paths as [| |pd]; try done.
    simpl. unfold dict_mem.
    destruct (dict_get pd (arg_scalar endpoint_path)) as [sub|] eqn:Hsub; simpl.
    + split; [split; done|]. intros _. by exists sub.
    + split; [done|]. intros Hne. by destruct Hne.
  - split; [done|]. intros Hne. by destruct Hne.
Qed.

Lemma getEndpoint_on_mapping_paths_witness :
  lookup_rule (Some "reporting") (Some "/v2/reports") doc_endpoint_example
  /\ str_contains "/v2/reports"
       (endpoint_not_found_message (Some "/v2/reports") (Some "reporting")) = true
  /\ str_contains "reporting"
       (endpoint_not_found_message (Some "/v2/reports") (Some "reporting")) = true.
Proof.
  apply (getEndpoint_on_mapping_paths (Some "reporting") (Some "/v2/reports")).
  intros paths Hp. vm_compute in Hp. injection Hp as <-. reflexivity.
Defined.

(** The lookup rule fails on a tree whose [paths] entry is [null]: the path
    is not a key of [paths], yet the error is a type error. *)
Lemma lookup_rule_fails_on_null_paths :
  ~ lookup_rule (Some "reporting") (Some "/v2/reports")
      (VDict [(SStr "paths", VNone)]).
Proof.
  intros [[_ Hback] _].
  assert (Habs : endpoint_absent (VDict [(SStr "paths", VNone)])
                   (arg_scalar (Some "/v2/reports"))) by reflexivity.
  specialize (Hback Habs). vm_compute in Hback. discriminate.
Qed.

Example getEndpoint_null_paths_type_error :
  getEndpoint (Some "reporting") (Some "/v2/reports") (VDict [(SStr "paths", VNone)])
  = Raise TypeError.
Proof. reflexivity. Qed.

(** ** Truncation of the search result *)

Lemma firstn_50_all {A} (l : list A) : (length l <= 50)%nat -> firstn 50 l = l.
Proof. intros H. by apply firstn_all2. Qed.

Lemma search_tool_after_fetch (requests_get : nat -> string -> http_outcome)
    (yaml_safe_load : string -> yaml_outcome) (d : list (string * string))
    (st st' : state) (tree : value) :
  fetch_yaml_spec requests_get yaml_safe_load (assoc_get d "spec_name") st
  = (Ok tree, st') ->
  tool_search_toast_spec requests_get yaml_safe_load (Some d) st
  = (Ok (search_text
           (search_recursive (lower (default "" (assoc_get d "search_term")))
              tree (SStr ""))), st').
Proof.
  intros Hfetch.
  unfold tool_search_toast_spec, arguments_get, mbind at 1 2 3, M_bind, bind, lift.
  simpl. by rewrite Hfetch.
Qed.

(** C7: the payload of [search_toast_spec] is the text built from the full
    list of hits, and that text holds the first fifty of them, in order.
    With fifty hits or fewer it is the JSON text of all the hits and nothing
    else; with more, it is the JSON text of the first fifty followed by a
    blank line and a note giving the number of hits left out; with 73 hits
    the note says 23. *)
Theorem search_text_truncates :
  (forall requests_get yaml_safe_load d st st' tree,
     fetch_yaml_spec requests_get yaml_safe_load (assoc_get d "spec_name") st
     = (Ok tree, st') ->
     tool_search_toast_spec requests_get yaml_safe_load (Some d) st
     = (Ok (search_text
              (search_recursive (lower (default "" (assoc_get d "search_term")))
                 tree (SStr ""))), st'))
  /\ (forall hits : list value,
     (length hits <= 50)%nat -> search_text hits = json_dumps (VList hits))
  /\ (forall hits : list value,
        (50 < length hits)%nat ->
        length (firstn 50 hits) = 50%nat
        /\ search_text hits
           = json_dumps (VList (firstn 50 hits)) +:+
             String "010" (String "010"
               ("... and " +:+ str_int (Z.of_nat (length hits - 50)) +:+ " more results")))
  /\ (let hits := search_recursive "foo" doc_many_hits (SStr "") in
      length hits = 73%nat
      /\ search_text hits
         = json_dumps (VList (firstn 50 hits)) +:+
           String "010" (String "010" "... and 23 more results")).
Proof.
  split; [|split; [|split]].
  - intros. by apply search_tool_after_fetch.
  - intros hits Hle. unfold search_text.
    rewrite firstn_50_all by exact Hle.
    replace (50 <? length hits)%nat with false
      by (symmetry; apply Nat.ltb_ge; exact Hle).
    apply append_empty_r.
  - intros hits Hlt. split.
    + rewrite length_firstn. lia.
    + unfold search_text, more_results_note.
      replace (50 <? length hits)%nat with true
        by (symmetry; apply Nat.ltb_lt; exact Hlt).
      by replace (Z.of_nat (length hits) - 50) with (Z.of_nat (length hits - 50)) by lia.
  - vm_compute. split; reflexivity.
Qed.

(** ** The cache stays within the catalog *)

Section CacheFacts.

Variable requests_get : nat -> string -> http_outcome.
Variable yaml_safe_load : string -> yaml_outcome.

Lemma fetch_cache_step (spec_name : arg) (st : state) :
  cache_step requests_get yaml_safe_load st
    (snd (fetch_yaml_spec requests_get yaml_safe_load spec_name st)).
Proof.
  pose proof (fetch_yaml_spec_outcome requests_get yaml_safe_load spec_name st)
    as Hout.
  inversion Hout as [k t Hk Hc|Hc Hu|k u r Hk Hc Hu Hn|k u x r Hk Hc Hu Hn Hy
                    |k u x t Hk Hc Hu Hn Hy]; simplify_eq; simpl;
    try (by left).
  right. exists k, t. split; [|split; [|split]]; try done.
  by eapply assoc_get_Some.
Qed.

Lemma handle_call_tool_state (name : string)
    (arguments : option (list (string * string))) (st : state) :
  snd (handle_call_tool requests_get yaml_safe_load name arguments st) = st
  \/ exists spec_name,
       snd (handle_call_tool requests_get yaml_safe_load name arguments st)
       = snd (fetch_yaml_spec requests_get yaml_safe_load spec_name st).
Proof.
  unfold handle_call_tool.
  repeat (match goal with
          | |- context [String.eqb name ?t] => destruct (String.eqb name t)
          end);
    try (by left).
  all: unfold tool_get_toast_spec, tool_get_toast_endpoints,
         tool_get_toast_endpoint_details, tool_search_toast_spec, arguments_get;
       (destruct arguments as [d|]; [|by left]); right;
       exists (assoc_get d "spec_name");
       unfold mbind, M_bind, bind, lift, mret, M_ret, ret; simpl;
       (destruct (fetch_yaml_spec requests_get yaml_safe_load
                    (assoc_get d "spec_name") st) as [[t|e] st']; [|done]);
       simpl; try done;
       first [by destruct (getEndpoint _ _ t) | by destruct (listEndpoints t)].
Qed.

Lemma call_cache_step (name : string) (arguments : option (list (string * string)))
    (st : state) :
  cache_step requests_get yaml_safe_load st
    (snd (handle_call_tool requests_get yaml_safe_load name arguments st)).
Proof.
  destruct (handle_call_tool_state name arguments st) as [->|[spec_name ->]].
  - by left.
  - apply fetch_cache_step.
Qed.

Lemma cache_step_within (st st' : state) :
  cache_step requests_get yaml_safe_load st st' ->
  cache_within_catalog st -> cache_within_catalog st'.
Proof.
  intros [Hsame|(id & tree & Hin & _ & _ & Hins)] Hinv k Hk.
  - apply Hinv. by rewrite <- Hsame.
  - rewrite Hins in Hk. destruct (decide (id = k)) as [<-|Hne]; [done|].
    apply Hinv. by rewrite lookup_insert_ne in Hk.
Qed.

Lemma reachable_within_catalog (st : state) :
  reachable requests_get yaml_safe_load st -> cache_within_catalog st.
Proof.
  induction 1 as [|st name arguments Hreach IH].
  - intros k [t Hk]. simpl in Hk. by rewrite lookup_empty in Hk.
  - eapply cache_step_within; [apply call_cache_step|exact IH].
Qed.

(** C9: in every state the server can reach, each identifier of the cache is
    a key of the catalog; and a tool call leaves the cache as it was, unless
    it makes a fetch that succeeds for a catalog identifier without an entry,
    whose tree it stores. *)
Theorem cache_keys_in_catalog (st : state) :
  reachable requests_get yaml_safe_load st ->
  cache_within_catalog st
  /\ forall name arguments,
       let st' :=
         snd (handle_call_tool requests_get yaml_safe_load name arguments st) in
       cache_within_catalog st'
       /\ (specs_cache st' = specs_cache st
           \/ exists id tree,
                In id catalog_keys
                /\ specs_cache st !! id = None
                /\ fetch_yaml_spec requests_get yaml_safe_load (Some id) st
                   = (Ok tree, st')
                /\ specs_cache st' = <[id := tree]> (specs_cache st)).
Proof.
  intros Hreach. split; [by apply reachable_within_catalog|].
  intros name arguments st'. split.
  - apply reachable_within_catalog. by constructor.
  - apply call_cache_step.
Qed.

End CacheFacts.

Lemma cache_keys_in_catalog_witness :
  let st := snd (handle_call_tool (net_serving "paths: {}")
                   (yaml_yielding doc_endpoint_example) "get_toast_spec"
                   (Some [("spec_name", "orders")]) initial_state) in
  cache_within_catalog st
  /\ forall name arguments,
       let st' := snd (handle_call_tool (net_serving "paths: {}")
                         (yaml_yielding doc_endpoint_example) name arguments st) in
       cache_within_catalog st'
       /\ (specs_cache st' = specs_cache st
           \/ exists id tree,
                In id catalog_keys
                /\ specs_cache st !! id = None
                /\ fetch_yaml_spec (net_serving "paths: {}")
                     (yaml_yielding doc_endpoint_example) (Some id) st = (Ok tree, st')
                /\ specs_cache st' = <[id := tree]> (specs_cache st)).
Proof.
  apply (cache_keys_in_catalog (net_serving "paths: {}")
           (yaml_yielding doc_endpoint_example)).
  apply reachable_call, reachable_initial.
Defined.

(** ** A root that is not a mapping *)

Section RootFacts.

Variable requests_get : nat -> string -> http_outcome.
Variable yaml_safe_load : string -> yaml_outcome.

Lemma fetch_ok_cached (spec_name : arg) (st st' : state) (tree : value) :
  fetch_yaml_spec requests_get yaml_safe_load spec_name st = (Ok tree, st') ->
  spec_name ≫= (fun k => specs_cache st' !! k) = Some tree.
Proof.
  intros Hfetch.
  pose proof (fetch_yaml_spec_outcome requests_get yaml_safe_load spec_name st) as Hout.
  rewrite Hfetch in Hout.
  inversion Hout as [k t Hk Hc| | | |k url text t Hk Hc Hu Hn Hy]; simplify_eq; simpl.
  - exact Hc.
  - apply lookup_insert_eq.
Qed.

Lemma endpoints_tool_after_fetch (d : list (string * string)) (st st' : state)
    (root : value) :
  fetch_yaml_spec requests_get yaml_safe_load (assoc_get d "spec_name") st
  = (Ok root, st') ->
  tool_get_toast_endpoints requests_get yaml_safe_load (Some d) st
  = (endpoints ← listEndpoints root; Ok (json_dumps (VList endpoints)), st').
Proof.
  intros Hfetch.
  unfold tool_get_toast_endpoints, arguments_get, mbind at 1 2 3, M_bind, bind, lift.
  simpl. rewrite Hfetch. by destruct (listEndpoints root).
Qed.

Lemma details_tool_after_fetch (d : list (string * string)) (st st' : state)
    (root : value) :
  fetch_yaml_spec requests_get yaml_safe_load (assoc_get d "spec_name") st
  = (Ok root, st') ->
  tool_get_toast_endpoint_details requests_get yaml_safe_load (Some d) st
  = (endpoint_data ← getEndpoint (assoc_get d "spec_name")
                        (assoc_get d "endpoint_path") root;
     Ok (json_dumps endpoint_data), st').
Proof.
  intros Hfetch.
  unfold tool_get_toast_endpoint_details, arguments_get,
    mbind at 1 2 3 4, M_bind, bind, lift.
  simpl. rewrite Hfetch. by destruct (getEndpoint _ _ root).
Qed.

(** C10 (as the code behaves): after a fetch that succeeds with a root that
    is not a mapping, the root is cached and the two endpoint tools run their
    membership test on it.  On [null], a boolean or a number the test raises
    a type error, and so do both tools.  On a sequence the test looks for an
    item equal to "paths", on a string for the substring "paths", and does
    not raise: when it finds nothing the listing is the empty list and the
    lookup raises the not-found error; when it finds something, indexing the
    root with "paths" raises a type error. *)
Theorem endpoint_tools_on_other_roots (d : list (string * string)) (st st' : state)
    (root : value) :
  fetch_yaml_spec requests_get yaml_safe_load (assoc_get d "spec_name") st
  = (Ok root, st') ->
  is_dict root = false ->
  assoc_get d "spec_name" ≫= (fun k => specs_cache st' !! k) = Some root
  /\ tool_get_toast_endpoints requests_get yaml_safe_load (Some d) st
     = (endpoints ← listEndpoints root; Ok (json_dumps (VList endpoints)), st')
  /\ tool_get_toast_endpoint_details requests_get yaml_safe_load (Some d) st
     = (endpoint_data ← getEndpoint (assoc_get d "spec_name")
                           (assoc_get d "endpoint_path") root;
        Ok (json_dumps endpoint_data), st')
  /\ match root with
     | VScalar (SStr s) =>
         py_in (SStr "paths") root = Ok (str_contains "paths" s)
         /\ after_membership (str_contains "paths" s)
              (assoc_get d "spec_name") (assoc_get d "endpoint_path") root
     | VList l =>
         py_in (SStr "paths") root = Ok (existsb is_paths_item l)
         /\ after_membership (existsb is_paths_item l)
              (assoc_get d "spec_name") (assoc_get d "endpoint_path") root
     | _ => membership_raises root
     end.
Proof.
  intros Hfetch Hroot.
  split; [by eapply fetch_ok_cached|].
  split; [by apply endpoints_tool_after_fetch|].
  split; [by apply details_tool_after_fetch|].
  destruct root as [[| | |s]|l|dd]; try done.
  - split; [done|].
    unfold after_membership, listEndpoints, getEndpoint. simpl.
    by destruct (str_contains "paths" s).
  - split; [done|].
    unfold after_membership, listEndpoints, getEndpoint. simpl.
    fold is_paths_item. by destruct (existsb is_paths_item l).
Qed.

End RootFacts.

Lemma endpoint_tools_on_other_roots_witness :
  let d := [("spec_name", "orders"); ("endpoint_path", "/v2/orders")] in
  let st' := snd (fetch_yaml_spec (net_serving "") (yaml_yielding VNone)
                    (Some "orders") initial_state) in
  assoc_get d "spec_name" ≫= (fun k => specs_cache st' !! k) = Some VNone
  /\ tool_get_toast_endpoints (net_serving "") (yaml_yielding VNone) (Some d)
       initial_state
     = (endpoints ← listEndpoints VNone; Ok (json_dumps (VList endpoints)), st')
  /\ tool_get_toast_endpoint_details (net_serving "") (yaml_yielding VNone) (Some d)
       initial_state
     = (endpoint_data ← getEndpoint (assoc_get d "spec_name")
                           (assoc_get d "endpoint_path") VNone;
        Ok (json_dumps endpoint_data), st')
  /\ membership_raises VNone.
Proof.
  apply (endpoint_tools_on_other_roots (net_serving "") (yaml_yielding VNone)
           [("spec_name", "orders"); ("endpoint_path", "/v2/orders")]
           initial_state _ VNone); reflexivity.
Defined.

(** A sequence root is not a mapping, and the membership test on it does not
    raise: the listing of [["a"]] is the empty list. *)
Lemma membership_on_sequence_does_not_raise :
  ~ (is_dict (VList [VStr "a"]) = false -> membership_raises (VList [VStr "a"])).
Proof.
  intros Hrule. destruct (Hrule eq_refl) as [Hin _]. vm_compute in Hin. discriminate.
Qed.

Example listing_of_sequence_root :
  listEndpoints (VList [VStr "a"]) = Ok [] /\ json_dumps (VList []) = "[]".
Proof. split; reflexivity. Qed.

(** ** Round trip of [get_toast_spec] *)

Lemma spec_tool_after_fetch (requests_get : nat -> string -> http_outcome)
    (yaml_safe_load : string -> yaml_outcome) (d : list (string * string))
    (st st' : state) (tree : value) :
  fetch_yaml_spec requests_get yaml_safe_load (assoc_get d "spec_name") st
  = (Ok tree, st') ->
  tool_get_toast_spec requests_get yaml_safe_load (Some d) st
  = (Ok (json_dumps tree), st').
Proof.
  intros Hfetch.
  unfold tool_get_toast_spec, arguments_get, mbind at 1 2, M_bind, bind, lift.
  simpl. by rewrite Hfetch.
Qed.




Example integer_key_reads_back_as_string :
  json_loads (json_dumps doc_status_codes) = Some (VDict [(SStr "200", VStr "OK")]).
Proof. reflexivity. Qed.

(** * Further properties *)

(** ** Search as a filter over the entries of the tree *)

Lemma search_recursive_entries (search_term : string) (obj : value) :
  forall path,
    search_recursive search_term obj path
    = map hit_of (List.filter (entry_matches search_term) (entries obj path)).
Proof.
  induction obj as [x|l IH|d IH] using value_nested_ind; intros path.
  - reflexivity.
  - simpl. generalize 0%nat as i.
    induction IH as [|item l Hitem Hl IHl]; intros i; [reflexivity|].
    cbn [List.filter entry_matches].
    rewrite List.filter_app, IHl, (Hitem (SStr (list_path path i))).
    destruct (str_contains search_term (lower (str_value item)));
      destruct item as [x|l'|d']; cbn [is_dict_or_list is_dict is_list orb map app hit_of];
      rewrite ?map_app; reflexivity.
  - simpl.
    induction IH as [|[key v] d Hv Hd IHd]; [reflexivity|].
    cbn [List.filter entry_matches].
    rewrite List.filter_app, IHd. simpl in Hv. rewrite (Hv (dict_path path key)).
    destruct (str_contains search_term (lower (str_scalar key))
              || str_contains search_term (lower (str_value v)));
      destruct v as [x|l'|d']; cbn [is_dict_or_list is_dict is_list orb map app hit_of];
      rewrite ?map_app; reflexivity.
Qed.

(** X1: the search visits every entry of the tree once, parent before
    children, mapping items in document order and sequence items by index,
    and emits a hit exactly for the entries whose key or stringified value
    contains the term, in the order of the visit. *)
Theorem search_is_filter_of_entries (search_term : string) (obj : value)
    (path : scalar) :
  search_recursive search_term obj path
  = map hit_of (List.filter (entry_matches search_term) (entries obj path))
  /\ forall hit,
       In hit (search_recursive search_term obj path)
       <-> exists e, In e (entries obj path)
                     /\ entry_matches search_term e = true
                     /\ hit = hit_of e.
Proof.
  split; [apply search_recursive_entries|].
  intros hit. rewrite search_recursive_entries, in_map_iff.
  split.
  - intros (e & <- & He). apply List.filter_In in He as [Hin Hm]. by exists e.
  - intros (e & Hin & Hm & ->). exists e. split; [done|].
    by apply List.filter_In.
Qed.

(** ** Substrings *)

Lemma prefix_split (a b : string) :
  String.prefix a b = true <-> exists s, b = a +:+ s.
Proof.
  split.
  - revert b. induction a as [|c a IH]; intros b H; [by exists b|].
    destruct b as [|c' b]; [done|]. simpl in H.
    destruct (ascii_dec c c') as [->|]; [|done].
    destruct (IH b H) as [s ->]. by exists s.
  - intros [s ->]. apply prefix_append.
Qed.

Lemma str_contains_split (a b : string) :
  str_contains a b = true <-> exists p s, b = p +:+ a +:+ s.
Proof.
  split.
  - induction b as [|c b IH]; intros H.
    + destruct a; [|done]. by exists EmptyString, EmptyString.
    + cbn [str_contains] in H. apply orb_true_iff in H as [H|H].
      * apply prefix_split in H as [s Hs]. by exists EmptyString, s.
      * destruct (IH H) as (p & s & ->). by exists (String c p), s.
  - intros (p & s & ->). apply str_contains_middle.
Qed.

Lemma str_contains_trans (a b c : string) :
  str_contains a b = true -> str_contains b c = true -> str_contains a c = true.
Proof.
  intros (p & s & ->)%str_contains_split (p' & s' & ->)%str_contains_split.
  apply str_contains_split. exists (p' +:+ p), (s +:+ s').
  by rewrite !append_assoc.
Qed.

Lemma str_contains_empty (s : string) : str_contains "" s = true.
Proof. by destruct s. Qed.

Lemma has_upper_append (a b : string) :
  has_upper (a +:+ b) = has_upper a || has_upper b.
Proof.
  induction a as [|c a IH]; [done|]. simpl. by rewrite IH, orb_assoc.
Qed.

Lemma lower_no_upper (s : string) : has_upper (lower s) = false.
Proof.
  induction s as [|c s IH]; [done|].
  unfold lower in *. simpl. rewrite IH, orb_false_r.
  by destruct c as [[] [] [] [] [] [] [] []].
Qed.

Lemma str_contains_has_upper (a b : string) :
  str_contains a b = true -> has_upper a = true -> has_upper b = true.
Proof.
  intros (p & s & ->)%str_contains_split Ha.
  rewrite !has_upper_append, Ha. by rewrite orb_true_r.
Qed.

Lemma upper_term_matches_nothing (search_term : string) (e : entry) :
  has_upper search_term = true -> entry_matches search_term e = false.
Proof.
  intros Hup.
  assert (Hno : forall s, str_contains search_term (lower s) = false).
  { intros s. destruct (str_contains search_term (lower s)) eqn:Hc; [|done].
    pose proof (str_contains_has_upper _ _ Hc Hup) as Hl.
    by rewrite lower_no_upper in Hl. }
  destruct e; simpl; by rewrite !Hno.
Qed.

Lemma length_entries (obj : value) :
  forall path, length (entries obj path) = count_entries obj.
Proof.
  induction obj as [x|l IH|d IH] using value_nested_ind; intros path.
  - reflexivity.
  - simpl. generalize 0%nat as i.
    induction IH as [|item l Hitem Hl IHl]; intros i; [reflexivity|].
    cbn [length map]. rewrite length_app, IHl, Hitem.
    unfold list_sum. cbn [fold_right]. lia.
  - simpl.
    induction IH as [|[key v] d Hv Hd IHd]; [reflexivity|].
    cbn [length map snd]. rewrite length_app, IHd. simpl in Hv. rewrite Hv.
    unfold list_sum. cbn [fold_right]. lia.
Qed.

(** ** The number of hits *)

(** X2: a search emits at most one hit for each entry of the tree, whatever
    the term; and with the empty term (the default when the caller gives no
    [search_term]) it emits exactly one hit for each entry. *)
Theorem search_hits_bounded_by_entries (search_term : string) (obj : value)
    (path : scalar) :
  (length (search_recursive search_term obj path) <= count_entries obj)%nat
  /\ search_recursive "" obj path = map hit_of (entries obj path)
  /\ length (search_recursive "" obj path) = count_entries obj
  /\ forall requests_get yaml_safe_load d st st',
       fetch_yaml_spec requests_get yaml_safe_load (assoc_get d "spec_name") st
       = (Ok obj, st') ->
       assoc_get d "search_term" = None ->
       tool_search_toast_spec requests_get yaml_safe_load (Some d) st
       = (Ok (search_text (search_recursive "" obj (SStr ""))), st').
Proof.
  assert (Hall : List.filter (entry_matches "") (entries obj path)
                 = entries obj path).
  { induction (entries obj path) as [|e l IHl]; [done|]. simpl.
    replace (entry_matches "" e) with true; [by rewrite IHl|].
    destruct e; simpl; by rewrite !str_contains_empty. }
  split; [|split; [|split]].
  - rewrite search_recursive_entries, length_map, <- (length_entries obj path).
    apply List.filter_length_le.
  - by rewrite search_recursive_entries, Hall.
  - by rewrite search_recursive_entries, Hall, length_map, length_entries.
  - intros n y d st st' Hfetch Hd.
    rewrite (search_tool_after_fetch n y d st st' obj Hfetch). by rewrite Hd.
Qed.

(** ** Upper-case terms *)

(** X3: the text searched is lower-cased and the term is not, so a term with
    an upper-case ASCII letter finds nothing; the tool lower-cases the term
    before it searches, and a lower-cased term has no such letter. *)
Theorem search_upper_case_term_finds_nothing (search_term : string) (obj : value)
    (path : scalar) :
  has_upper search_term = true ->
  search_recursive search_term obj path = []
  /\ has_upper (lower search_term) = false.
Proof.
  intros Hup. split; [|apply lower_no_upper].
  rewrite search_recursive_entries.
  induction (entries obj path) as [|e l IHl]; [done|]. simpl.
  by rewrite (upper_term_matches_nothing search_term e Hup).
Qed.

Lemma search_upper_case_term_finds_nothing_witness :
  search_recursive "Foo" doc_search_example (SStr "") = []
  /\ has_upper (lower "Foo") = false.
Proof.
  apply (search_upper_case_term_finds_nothing "Foo" doc_search_example (SStr "")).
  reflexivity.
Defined.

(** ** Narrowing a search *)

Lemma entry_matches_narrow (t1 t2 : string) (e : entry) :
  str_contains t1 t2 = true ->
  entry_matches t2 e = true -> entry_matches t1 e = true.
Proof.
  intros H12. destruct e; simpl; rewrite ?orb_true_iff;
    intuition eauto using str_contains_trans.
Qed.

(** X4: a longer term narrows the search: when [t1] occurs in [t2], the hits
    for [t2] are among the hits for [t1], in the same order. *)
Theorem search_narrows (t1 t2 : string) (obj : value) (path : scalar) :
  str_contains t1 t2 = true ->
  sublist (search_recursive t2 obj path) (search_recursive t1 obj path).
Proof.
  intros H12. rewrite !search_recursive_entries.
  induction (entries obj path) as [|e l IHl]; [constructor|]. simpl.
  destruct (entry_matches t2 e) eqn:H2.
  - rewrite (entry_matches_narrow t1 t2 e H12 H2). simpl. by constructor.
  - destruct (entry_matches t1 e); simpl; [by constructor|exact IHl].
Qed.

Lemma search_narrows_witness :
  sublist (search_recursive "nofoo" doc_search_example (SStr ""))
          (search_recursive "foo" doc_search_example (SStr "")).
Proof.
  apply (search_narrows "foo" "nofoo" doc_search_example (SStr "")).
  reflexivity.
Defined.

(** ** The search payload as JSON *)

Lemma json_loads_followed (v : value) (rest : string) :
  well_formed v = true -> string_keyed v = true -> delimits rest = true ->
  json_loads (json_dumps v +:+ rest)
  = match skip_ws rest with
    | EmptyString => Some v
    | _ => None
    end.
Proof.
  intros Hwf Hsk Hrest. unfold json_loads, json_dumps.
  rewrite skip_ws_json_encode.
  rewrite (json_encode_reads_back v Hwf Hsk 0%nat rest); [done| |done].
  rewrite length_append. pose proof (need_le_length v 0). lia.
Qed.

Lemma hit_of_flat (e : entry) :
  well_formed (hit_of e) = true /\ string_keyed (hit_of e) = true.
Proof. destruct e as [cp k [x|l|d]|cp [x|l|d]]; by split. Qed.

Lemma hits_flat (hits : list entry) (n : nat) :
  well_formed (VList (firstn n (map hit_of hits))) = true
  /\ string_keyed (VList (firstn n (map hit_of hits))) = true.
Proof.
  revert n. induction hits as [|e l IH]; intros [|n]; try done.
  destruct (hit_of_flat e) as [Hw Hs], (IH n) as [Hwl Hsl].
  cbn [map firstn well_formed string_keyed forallb].
  simpl in Hwl, Hsl. by rewrite Hw, Hs, Hwl, Hsl.
Qed.

(** X5: every hit is a flat record with string field names, so for any tree
    the payload of a search with fifty hits or fewer is JSON text that reads
    back as the list of hits; with more than fifty hits the note appended
    after the array makes the payload text that no longer reads as JSON. *)
Theorem search_payload_as_json (search_term : string) (obj : value) (path : scalar) :
  json_loads (search_text (search_recursive search_term obj path))
  = if (50 <? length (search_recursive search_term obj path))%nat
    then None
    else Some (VList (search_recursive search_term obj path)).
Proof.
  rewrite search_recursive_entries.
  set (es := List.filter (entry_matches search_term) (entries obj path)).
  destruct (hits_flat es 50) as [Hwf Hsk].
  unfold search_text.
  destruct (50 <? length (map hit_of es))%nat eqn:Hlen.
  - rewrite json_loads_followed; done.
  - rewrite json_loads_followed; [|done..]. simpl.
    apply Nat.ltb_ge in Hlen. by rewrite firstn_all2.
Qed.

(** ** The endpoint listing, case by case *)

(** X6: on a root mapping the listing raises nothing but [AttributeError],
    and raises it exactly when [paths] is present and is not a mapping from
    paths to mappings whose mapping-valued items have string keys; otherwise
    it returns one endpoint for each mapping-valued item with a string key,
    in document order, and the empty list when [paths] is absent. *)
Theorem listEndpoints_by_shape (d : list (scalar * value)) :
  listEndpoints (VDict d)
  = match dict_get d (SStr "paths") with
    | None => Ok []
    | Some paths =>
        if listing_shape_ok paths then Ok (listing paths) else Raise AttributeError
    end
  /\ forall e, listEndpoints (VDict d) = Raise e -> e = AttributeError.
Proof.
  split; [apply listEndpoints_cases|].
  intros e. rewrite listEndpoints_cases.
  destruct (dict_get d (SStr "paths")) as [paths|]; [|done].
  destruct (listing_shape_ok paths); [done|]. by intros [= <-].
Qed.

(** ** Listing and lookup agree *)

Lemma dict_get_present (d : list (scalar * value)) (k : scalar) (v : value) :
  In (k, v) d -> scalar_eqb k k = true ->
  exists k' sub, dict_get d k = Some sub /\ In (k', sub) d.
Proof.
  intros Hin Hrefl. induction d as [|[k0 v0] d IH]; [done|].
  cbn [dict_get]. destruct (scalar_eqb k0 k) eqn:Heq.
  - exists k0, v0. split; [done|by left].
  - destruct Hin as [[= -> ->]|Hin]; [congruence|].
    destruct (IH Hin) as (k' & sub & Hget & Hsub).
    exists k', sub. split; [done|by right].
Qed.

Lemma in_endpoints_in (path : scalar) (methods : list (scalar * value)) (e : value) :
  In e (endpoints_in path methods) ->
  exists method details,
    In (SStr method, VDict details) methods
    /\ e = endpoint path (upper method) details.
Proof.
  unfold endpoints_in. rewrite in_flat_map.
  intros ([k v] & Hmember & Hin).
  destruct k as [| | |m]; try done. destruct v as [x|l|details]; try done.
  destruct Hin as [<-|[]]. by exists m, details.
Qed.

(** X7: the listing and the lookup agree: whenever the listing succeeds,
    every endpoint it shows under a string path can be looked up by that
    path, and the lookup returns a mapping. *)
Theorem listed_endpoint_is_found (spec_name : arg) (tree : value)
    (endpoints : list value) (e : value) (p : string) :
  listEndpoints tree = Ok endpoints ->
  In e endpoints ->
  field "path" e = Some (VStr p) ->
  exists sub,
    getEndpoint spec_name (Some p) tree = Ok sub /\ is_dict sub = true.
Proof.
  intros Hlist Hin Hpath.
  destruct tree as [x|l|d].
  - destruct x as [| | |s]; try done.
    unfold listEndpoints in Hlist. simpl in Hlist.
    destruct (str_contains "paths" s); [done|]. by injection Hlist as <-.
  - unfold listEndpoints in Hlist. simpl in Hlist.
    destruct (existsb _ l); [done|]. by injection Hlist as <-.
  - rewrite listEndpoints_cases in Hlist. rewrite getEndpoint_unfold.
    destruct (dict_get d (SStr "paths")) as [paths|];
      [|by injection Hlist as <-].
    destruct (listing_shape_ok paths) eqn:Hshape; [|done].
    injection Hlist as <-.
    destruct paths as [x|l|items]; try done.
    cbn [listing] in Hin. apply in_flat_map in Hin as ([path methods] & Hitem & Hin).
    cbn [snd fst] in Hin. destruct methods as [x|l|ms]; try done.
    apply in_endpoints_in in Hin as (m & details & _ & ->).
    cbn in Hpath. injection Hpath as ->.
    destruct (dict_get_present items (SStr p) (VDict ms) Hitem) as (k' & sub & Hget & Hsub).
    { cbn. apply String.eqb_refl. }
    exists sub. cbn [arg_scalar py_in py_getitem]. unfold dict_mem.
    rewrite Hget. split; [reflexivity|].
    cbn [listing_shape_ok] in Hshape. rewrite forallb_forall in Hshape.
    specialize (Hshape (k', sub) Hsub). unfold path_entry_ok in Hshape.
    cbn [snd] in Hshape. by destruct sub.
Qed.

Lemma listed_endpoint_is_found_witness :
  exists sub,
    getEndpoint (Some "reporting") (Some "/v2/reports") doc_endpoint_example = Ok sub
    /\ is_dict sub = true.
Proof.
  apply (listed_endpoint_is_found (Some "reporting") doc_endpoint_example
           [VDict [(SStr "path", VStr "/v2/reports"); (SStr "method", VStr "GET");
                   (SStr "summary", VStr "S"); (SStr "description", VStr "")]]
           (VDict [(SStr "path", VStr "/v2/reports"); (SStr "method", VStr "GET");
                   (SStr "summary", VStr "S"); (SStr "description", VStr "")])
           "/v2/reports").
  - reflexivity.
  - by left.
  - reflexivity.
Defined.

(** ** The cache only grows *)

Lemma cache_step_keeps (requests_get : nat -> string -> http_outcome)
    (yaml_safe_load : string -> yaml_outcome) (st st' : state) (k : string)
    (tree : value) :
  cache_step requests_get yaml_safe_load st st' ->
  specs_cache st !! k = Some tree -> specs_cache st' !! k = Some tree.
Proof.
  intros [Hsame|(id & t & _ & Hnone & _ & Hins)] Hk.
  - by rewrite Hsame.
  - rewrite Hins. rewrite lookup_insert_ne; [done|]. intros ->. congruence.
Qed.

(** X8: a cache entry is never evicted or overwritten: whatever tool calls
    follow, with whatever arguments and results, an identifier that is cached
    stays cached with the same tree. *)
Theorem cache_entries_are_kept (requests_get : nat -> string -> http_outcome)
    (yaml_safe_load : string -> yaml_outcome)
    (calls : list (string * option (list (string * string)))) (st : state)
    (k : string) (tree : value) :
  specs_cache st !! k = Some tree ->
  specs_cache (run_calls requests_get yaml_safe_load calls st) !! k = Some tree.
Proof.
  revert st. induction calls as [|[name arguments] calls IH]; intros st Hk; [done|].
  apply IH. eapply cache_step_keeps; [apply call_cache_step|exact Hk].
Qed.

Lemma cache_entries_are_kept_witness :
  let net := net_serving "paths: {}" in
  let yaml := yaml_yielding doc_endpoint_example in
  let st := snd (fetch_yaml_spec net yaml (Some "orders") initial_state) in
  specs_cache
    (run_calls net yaml
       [("get_toast_spec", Some [("spec_name", "menus")]);
        ("get_toast_endpoints", Some [("spec_name", "orders")]);
        ("no_such_tool", None)] st) !! "orders"
  = Some doc_endpoint_example.
Proof.
  apply (cache_entries_are_kept (net_serving "paths: {}")
           (yaml_yielding doc_endpoint_example)).
  reflexivity.
Defined.

(** ** Accounting of the effects *)

Lemma assoc_get_value {A} (l : list (string * A)) (k : string) (a : A) :
  assoc_get l k = Some a -> In a (map snd l).
Proof.
  induction l as [|[k' a'] l IH]; [done|].
  unfold assoc_get; fold (@assoc_get A).
  destruct (String.eqb k' k); [intros [= ->]; by left|].
  intros H. right. by apply IH.
Qed.

Lemma fetch_effects_step (requests_get : nat -> string -> http_outcome)
    (yaml_safe_load : string -> yaml_outcome) (spec_name : arg) (st : state) :
  effects_step st (snd (fetch_yaml_spec requests_get yaml_safe_load spec_name st)).
Proof.
  pose proof (fetch_yaml_spec_outcome requests_get yaml_safe_load spec_name st)
    as Hout.
  inversion Hout as [k t Hk Hc|Hc Hu|k u r Hk Hc Hu Hn|k u x r Hk Hc Hu Hn Hy
                    |k u x t Hk Hc Hu Hn Hy]; simplify_eq; simpl;
    try (by left); right; exists u;
    (split; [by eapply assoc_get_value|]); (split; [done|]).
  - by left.
  - right. split; [done|]. by left.
  - right. split; [done|]. right. by exists k, t.
Qed.

Lemma call_effects_step (requests_get : nat -> string -> http_outcome)
    (yaml_safe_load : string -> yaml_outcome) (name : string)
    (arguments : option (list (string * string))) (st : state) :
  effects_step st
    (snd (handle_call_tool requests_get yaml_safe_load name arguments st)).
Proof.
  destruct (handle_call_tool_state requests_get yaml_safe_load name arguments st)
    as [->|[spec_name ->]].
  - by left.
  - apply fetch_effects_step.
Qed.

Lemma effects_step_consistent (st st' : state) :
  effects_step st st' -> effects_consistent st -> effects_consistent st'.
Proof.
  intros [->|(url & Hurl & Hreq & Hrest)] (Hp & Hs & Hu); [done|].
  unfold effects_consistent. rewrite Hreq. simpl.
  destruct Hrest as [[Hpar Hc]|[Hpar [Hc|(k & t & Hnone & Hc)]]];
    rewrite Hpar, Hc; repeat split; try lia; try (by constructor).
  rewrite map_size_insert_None by done. lia.
Qed.

(** X9: in every state the server can reach there are no more parses than
    requests, no more cache entries than parses, and every request went to
    a URL of the catalog; and a tool call makes at most one request. *)
Theorem effects_are_accounted (requests_get : nat -> string -> http_outcome)
    (yaml_safe_load : string -> yaml_outcome) (st : state) :
  reachable requests_get yaml_safe_load st ->
  effects_consistent st
  /\ forall name arguments,
       (length (requested
                  (snd (handle_call_tool requests_get yaml_safe_load
                          name arguments st)))
        <= S (length (requested st)))%nat.
Proof.
  intros Hreach. split.
  - induction Hreach as [|st name arguments Hreach IH].
    + repeat split; simpl; [lia|by rewrite map_size_empty|constructor].
    + eapply effects_step_consistent; [apply call_effects_step|exact IH].
  - intros name arguments.
    destruct (call_effects_step requests_get yaml_safe_load name arguments st)
      as [->|(url & _ & -> & _)]; simpl; lia.
Qed.

Lemma effects_are_accounted_witness :
  let net := net_serving "paths: {}" in
  let yaml := yaml_yielding doc_endpoint_example in
  let st := snd (handle_call_tool net yaml "get_toast_spec"
                   (Some [("spec_name", "orders")]) initial_state) in
  effects_consistent st
  /\ forall name arguments,
       (length (requested (snd (handle_call_tool net yaml name arguments st)))
        <= S (length (requested st)))%nat.
Proof.
  apply (effects_are_accounted (net_serving "paths: {}")
           (yaml_yielding doc_endpoint_example)).
  apply reachable_call, reachable_initial.
Defined.

(** ** A tool call as a fetch followed by a query *)

Section ToolFacts.

Variable requests_get : nat -> string -> http_outcome.
Variable yaml_safe_load : string -> yaml_outcome.

Lemma fetch_cached (id : string) (st : state) (tree : value) :
  specs_cache st !! id = Some tree ->
  fetch_yaml_spec requests_get yaml_safe_load (Some id) st = (Ok tree, st).
Proof.
  intros Hc. unfold fetch_yaml_spec, mbind, M_bind, bind, cache_get. simpl.
  by rewrite Hc.
Qed.

Lemma spec_tool_call (name : string) (d : list (string * string)) (st : state) :
  In name tool_names -> name <> "list_toast_specs" ->
  handle_call_tool requests_get yaml_safe_load name (Some d) st
  = match fetch_yaml_spec requests_get yaml_safe_load (assoc_get d "spec_name") st with
    | (Ok tree, st') => (query_of name d tree, st')
    | (Raise e, st') => (Raise e, st')
    end.
Proof.
  intros Hin Hne.
  destruct (fetch_yaml_spec requests_get yaml_safe_load (assoc_get d "spec_name") st)
    as [[tree|e] st'] eqn:Hfetch.
  - simpl in Hin. destruct Hin as [<-|[<-|[<-|[<-|[<-|[]]]]]]; [done|..];
      unfold handle_call_tool, query_of; cbn [String.eqb Ascii.eqb Bool.eqb].
    + by apply spec_tool_after_fetch.
    + by apply endpoints_tool_after_fetch.
    + by apply details_tool_after_fetch.
    + by apply search_tool_after_fetch.
  - simpl in Hin. destruct Hin as [<-|[<-|[<-|[<-|[<-|[]]]]]]; [done|..];
      unfold handle_call_tool; cbn [String.eqb Ascii.eqb Bool.eqb];
      unfold tool_get_toast_spec, tool_get_toast_endpoints,
        tool_get_toast_endpoint_details, tool_search_toast_spec, arguments_get,
        mbind, M_bind, bind, lift; simpl; by rewrite Hfetch.
Qed.

End ToolFacts.

(** ** Tools on a cached specification *)

(** X10: once a specification is cached, every tool call that names it is a
    pure query: it leaves the state as it is (no request, no parse, no cache
    write) and its result does not depend on the network or the parser. *)
Theorem tools_on_cached_spec_are_pure
    (requests_get requests_get' : nat -> string -> http_outcome)
    (yaml_safe_load yaml_safe_load' : string -> yaml_outcome)
    (name id : string) (d : list (string * string)) (st : state) (tree : value) :
  specs_cache st !! id = Some tree ->
  assoc_get d "spec_name" = Some id ->
  snd (handle_call_tool requests_get yaml_safe_load name (Some d) st) = st
  /\ handle_call_tool requests_get yaml_safe_load name (Some d) st
     = handle_call_tool requests_get' yaml_safe_load' name (Some d) st.
Proof.
  intros Hc Hd.
  destruct (in_dec string_dec name tool_names) as [Hin|Hnot].
  - destruct (string_dec name "list_toast_specs") as [->|Hne]; [done|].
    rewrite !spec_tool_call by done.
    rewrite Hd, !(fetch_cached _ _ id st tree Hc). done.
  - assert (Hunknown : forall n y,
              handle_call_tool n y name (Some d) st
              = (Raise (ValueError ("Unknown tool: " +:+ name)), st)).
    { intros n y. unfold handle_call_tool.
      repeat (match goal with
              | |- context [String.eqb name ?t] =>
                  destruct (String.eqb_spec name t) as [->|_]
              end); try done; exfalso; apply Hnot; simpl; tauto. }
    by rewrite !Hunknown.
Qed.

Lemma tools_on_cached_spec_are_pure_witness :
  let st := snd (fetch_yaml_spec (net_serving "paths: {}")
                   (yaml_yielding doc_endpoint_example) (Some "orders")
                   initial_state) in
  let d := [("spec_name", "orders"); ("search_term", "Reports")] in
  snd (handle_call_tool net_down yaml_rejecting "search_toast_spec" (Some d) st) = st
  /\ handle_call_tool net_down yaml_rejecting "search_toast_spec" (Some d) st
     = handle_call_tool (net_serving "") (yaml_yielding VNone)
         "search_toast_spec" (Some d) st.
Proof.
  apply (tools_on_cached_spec_are_pure net_down (net_serving "") yaml_rejecting
           (yaml_yielding VNone) "search_toast_spec" "orders"
           [("spec_name", "orders"); ("search_term", "Reports")] _
           doc_endpoint_example); reflexivity.
Defined.

(** ** The exceptions of a tool call *)

Lemma fetch_errors (requests_get : nat -> string -> http_outcome)
    (yaml_safe_load : string -> yaml_outcome) (spec_name : arg) (st st' : state)
    (e : exn) :
  fetch_yaml_spec requests_get yaml_safe_load spec_name st = (Raise e, st') ->
  e = ValueError (unknown_spec_message spec_name)
  \/ exists url reason,
       In url catalog_urls
       /\ (e = Exception (fetch_failed_message url reason)
           \/ e = Exception (parse_failed_message url reason)).
Proof.
  intros Hfetch.
  pose proof (fetch_yaml_spec_outcome requests_get yaml_safe_load spec_name st)
    as Hout.
  rewrite Hfetch in Hout.
  inversion Hout as [|Hc Hu|k u r Hk Hc Hu Hn|k u x r Hk Hc Hu Hn Hy|];
    simplify_eq; [by left| |]; right; exists u, r;
    (split; [by eapply assoc_get_value|]); [by left|by right].
Qed.

Lemma listEndpoints_errors (tree : value) (e : exn) :
  listEndpoints tree = Raise e -> e = TypeError \/ e = AttributeError.
Proof.
  destruct tree as [[| | |s]|l|d].
  1-3: intros [= <-]; by left.
  - unfold listEndpoints. simpl. destruct (str_contains "paths" s); [|done].
    intros [= <-]. by left.
  - unfold listEndpoints. simpl. destruct (existsb _ l); [|done].
    intros [= <-]. by left.
  - rewrite listEndpoints_cases.
    destruct (dict_get d (SStr "paths")) as [paths|]; [|done].
    destruct (listing_shape_ok paths); [done|]. intros [= <-]. by right.
Qed.

Lemma getEndpoint_errors (spec_name endpoint_path : arg) (tree : value) (e : exn) :
  getEndpoint spec_name endpoint_path tree = Raise e ->
  e = TypeError
  \/ e = ValueError (endpoint_not_found_message endpoint_path spec_name).
Proof.
  destruct tree as [[| | |s]|l|d].
  1-3: intros [= <-]; by left.
  - unfold getEndpoint. simpl. destruct (str_contains "paths" s); simpl;
      intros [= <-]; [by left|by right].
  - unfold getEndpoint. simpl. destruct (existsb _ l); simpl;
      intros [= <-]; [by left|by right].
  - rewrite getEndpoint_unfold.
    destruct (dict_get d (SStr "paths")) as [paths|]; [|intros [= <-]; by right].
    destruct paths as [[| | |s]|l|pd]; simpl.
    1-3: intros [= <-]; by left.
    + destruct endpoint_path as [p|]; simpl; [|intros [= <-]; by left].
      destruct (str_contains p s); intros [= <-]; [by left|by right].
    + destruct (existsb _ l); intros [= <-]; [by left|by right].
    + unfold dict_mem.
      destruct (dict_get pd (arg_scalar endpoint_path)); [done|].
      intros [= <-]. by right.
Qed.

Lemma call_raised_by_tool (requests_get : nat -> string -> http_outcome)
    (yaml_safe_load : string -> yaml_outcome) (name : string)
    (arguments : option (list (string * string))) (st st' : state) (e : exn) :
  handle_call_tool requests_get yaml_safe_load name arguments st = (Raise e, st') ->
  raised_by_tool name e.
Proof.
  intros Hcall.
  destruct (in_dec string_dec name tool_names) as [Hin|Hnot].
  - destruct (string_dec name "list_toast_specs") as [->|Hne]; [done|].
    destruct arguments as [d|].
    + rewrite spec_tool_call in Hcall by done.
      destruct (fetch_yaml_spec requests_get yaml_safe_load
                  (assoc_get d "spec_name") st) as [[tree|e'] st1] eqn:Hfetch.
      * injection Hcall as Hq _. unfold query_of in Hq.
        simpl in Hin.
        destruct Hin as [<-|[<-|[<-|[<-|[<-|[]]]]]]; try done;
          cbn [String.eqb Ascii.eqb Bool.eqb] in Hq.
        -- destruct (listEndpoints tree) as [es|e'] eqn:Hl; [done|].
           injection Hq as <-.
           destruct (listEndpoints_errors tree e' Hl) as [-> | ->].
           ++ apply raised_type_error; [simpl; tauto|done].
           ++ apply raised_attribute_error; [simpl; tauto|done].
        -- destruct (getEndpoint _ _ tree) as [sub|e'] eqn:Hg; [done|].
           injection Hq as <-.
           destruct (getEndpoint_errors _ _ tree e' Hg) as [-> | ->].
           ++ apply raised_type_error; [simpl; tauto|done].
           ++ by apply raised_not_found.
      * injection Hcall as <- _.
        destruct (fetch_errors _ _ _ _ _ _ Hfetch)
          as [->|(url & reason & Hurl & [-> | ->])].
        -- by apply raised_unknown_spec.
        -- by apply raised_fetch_failed.
        -- by apply raised_parse_failed.
    + simpl in Hin.
      destruct Hin as [<-|[<-|[<-|[<-|[<-|[]]]]]]; try done;
        injection Hcall as <- _; apply raised_attribute_error; simpl; tauto.
  - unfold handle_call_tool in Hcall.
    repeat (match type of Hcall with
            | context [String.eqb name ?t] =>
                destruct (String.eqb_spec name t) as [->|_]
            end); try (exfalso; apply Hnot; simpl; tauto).
    injection Hcall as <- _. by apply raised_unknown_tool.
Qed.

(** ** The tools listed and the tools dispatched *)

Lemma unlisted_tool_call (requests_get : nat -> string -> http_outcome)
    (yaml_safe_load : string -> yaml_outcome) (name : string)
    (arguments : option (list (string * string))) (st : state) :
  ~ In name tool_names ->
  handle_call_tool requests_get yaml_safe_load name arguments st
  = (Raise (ValueError ("Unknown tool: " +:+ name)), st).
Proof.
  intros Hnot. unfold handle_call_tool.
  repeat (match goal with
          | |- context [String.eqb name ?t] =>
              destruct (String.eqb_spec name t) as [->|_]
          end); try done; exfalso; apply Hnot; simpl; tauto.
Qed.

(** X12: the dispatcher knows exactly the tools that [handle_list_tools]
    lists: a call by any other name raises the unknown-tool [ValueError] and
    leaves the state as it is, and a call by a listed name never raises it. *)
Theorem listed_tools_are_dispatched (requests_get : nat -> string -> http_outcome)
    (yaml_safe_load : string -> yaml_outcome) (name : string)
    (arguments : option (list (string * string))) (st : state) :
  (~ In name tool_names ->
   handle_call_tool requests_get yaml_safe_load name arguments st
   = (Raise (ValueError ("Unknown tool: " +:+ name)), st))
  /\ (In name tool_names ->
      fst (handle_call_tool requests_get yaml_safe_load name arguments st)
      <> Raise (ValueError ("Unknown tool: " +:+ name))).
Proof.
  split; [apply unlisted_tool_call|].
  intros Hin Hraise.
  destruct (handle_call_tool requests_get yaml_safe_load name arguments st)
    as [r st'] eqn:Hcall.
  simpl in Hraise. subst r.
  apply call_raised_by_tool in Hcall.
  inversion Hcall as [Hnot| |sn _ _ Hmsg| | |ep sn _ Hmsg|]; [done|..];
    unfold unknown_spec_message, endpoint_not_found_message in Hmsg;
    simpl in Hmsg; discriminate.
Qed.

(** ** Required arguments *)

Lemma fetch_without_name (requests_get : nat -> string -> http_outcome)
    (yaml_safe_load : string -> yaml_outcome) (st : state) :
  fetch_yaml_spec requests_get yaml_safe_load None st
  = (Raise (ValueError (unknown_spec_message None)), st).
Proof. reflexivity. Qed.

(** X13: the schemas agree with the handlers on [spec_name]: a listed tool
    whose schema requires nothing succeeds on any arguments, even none; every
    other listed tool requires [spec_name], raises [AttributeError] when it
    gets no arguments at all, and raises the unknown-spec [ValueError] for
    [None] when its arguments lack [spec_name]; in all these cases the state
    is left as it is. *)
Theorem required_spec_name (requests_get : nat -> string -> http_outcome)
    (yaml_safe_load : string -> yaml_outcome) (st : state) :
  Forall
    (fun tool =>
       match required_arguments tool with
       | [] =>
           forall arguments, exists text,
             handle_call_tool requests_get yaml_safe_load (tool_name tool)
               arguments st = (Ok text, st)
       | _ =>
           In (VStr "spec_name") (required_arguments tool)
           /\ handle_call_tool requests_get yaml_safe_load (tool_name tool) None st
              = (Raise AttributeError, st)
           /\ forall d,
                assoc_get d "spec_name" = None ->
                handle_call_tool requests_get yaml_safe_load (tool_name tool)
                  (Some d) st
                = (Raise (ValueError (unknown_spec_message None)), st)
       end)
    handle_list_tools.
Proof.
  repeat constructor; cbn [required_arguments inputSchema tool_name].
  1: by eexists.
  all: intros d Hd; rewrite spec_tool_call; [|simpl; tauto|done];
       by rewrite Hd, fetch_without_name.
Qed.

(** ** The specifications listed and the specifications fetched *)

Lemma fetch_miss_requests (requests_get : nat -> string -> http_outcome)
    (yaml_safe_load : string -> yaml_outcome) (id url : string) (st : state) :
  specs_cache st !! id = None ->
  assoc_get TOAST_SPECS id = Some url ->
  requested (snd (fetch_yaml_spec requests_get yaml_safe_load (Some id) st))
  = url :: requested st.
Proof.
  intros Hmiss Hurl.
  pose proof (fetch_yaml_spec_outcome requests_get yaml_safe_load (Some id) st)
    as Hout.
  inversion Hout as [k t Hk Hc|Hc Hu|k u r Hk Hc Hu Hn|k u x r Hk Hc Hu Hn Hy
                    |k u x t Hk Hc Hu Hn Hy]; simplify_eq; try done.
  simpl in Hu. congruence.
Qed.

Lemma catalog_entries_resolve :
  Forall (fun entry => assoc_get TOAST_SPECS (fst entry) = Some (snd entry))
    TOAST_SPECS.
Proof. repeat constructor. Qed.

(** X14: [list_toast_specs] needs no arguments and touches nothing: in any
    state and with any arguments its payload is the JSON text of one
    [{name, url}] record for each catalog entry, in catalog order, and the
    state is left as it is.  Every entry it shows is one the fetch knows: for
    a name that is not cached, the fetch makes its request to the URL
    shown. *)
Theorem listed_specs_are_the_catalog (requests_get : nat -> string -> http_outcome)
    (yaml_safe_load : string -> yaml_outcome)
    (arguments : option (list (string * string))) (st : state) :
  handle_call_tool requests_get yaml_safe_load "list_toast_specs" arguments st
  = (Ok (json_dumps (VList (map spec_record TOAST_SPECS))), st)
  /\ json_loads (json_dumps (VList (map spec_record TOAST_SPECS)))
     = Some (VList (map spec_record TOAST_SPECS))
  /\ forall name url,
       In (name, url) TOAST_SPECS ->
       specs_cache st !! name = None ->
       requested (snd (fetch_yaml_spec requests_get yaml_safe_load (Some name) st))
       = url :: requested st.
Proof.
  split; [reflexivity|]. split.
  - by apply dumps_loads.
  - intros name url Hin Hmiss. apply fetch_miss_requests; [done|].
    pose proof catalog_entries_resolve as Hall.
    rewrite Forall_forall in Hall.
    apply (Hall (name, url)). by apply list_elem_of_In.
Qed.

(** ** The payloads of the endpoint tools as JSON *)

Lemma dict_get_In (d : list (scalar * value)) (k : scalar) (v : value) :
  dict_get d k = Some v -> exists k', In (k', v) d.
Proof.
  induction d as [|[k0 v0] d IH]; [done|]. cbn [dict_get].
  destruct (scalar_eqb k0 k).
  - intros [= ->]. exists k0. by left.
  - intros H. destruct (IH H) as [k' Hin]. exists k'. by right.
Qed.

Lemma well_formed_member (d : list (scalar * value)) (k : scalar) (v : value) :
  well_formed (VDict d) = true -> In (k, v) d -> well_formed v = true.
Proof.
  cbn [well_formed]. intros [_ Hall]%andb_true_iff Hin.
  rewrite forallb_forall in Hall. by apply (Hall (k, v)).
Qed.

Lemma string_keyed_member (d : list (scalar * value)) (k : scalar) (v : value) :
  string_keyed (VDict d) = true -> In (k, v) d -> string_keyed v = true.
Proof.
  cbn [string_keyed]. intros Hall Hin.
  rewrite forallb_forall in Hall.
  specialize (Hall (k, v) Hin). by apply andb_true_iff in Hall as [_ Hv].
Qed.

Lemma get_or_empty_readable (details : list (scalar * value)) (name : string) :
  well_formed (VDict details) = true -> string_keyed (VDict details) = true ->
  well_formed (get_or_empty details name) = true
  /\ string_keyed (get_or_empty details name) = true.
Proof.
  intros Hwf Hsk. unfold get_or_empty.
  destruct (dict_get details (SStr name)) as [v|] eqn:Hget; [|done].
  destruct (dict_get_In _ _ _ Hget) as [k' Hin].
  split; [by eapply well_formed_member|by eapply string_keyed_member].
Qed.

Lemma endpoint_readable (path : scalar) (method : string)
    (details : list (scalar * value)) :
  well_formed (VDict details) = true -> string_keyed (VDict details) = true ->
  well_formed (endpoint path method details) = true
  /\ string_keyed (endpoint path method details) = true.
Proof.
  intros Hwf Hsk.
  destruct (get_or_empty_readable details "summary" Hwf Hsk) as [Hw1 Hs1].
  destruct (get_or_empty_readable details "description" Hwf Hsk) as [Hw2 Hs2].
  unfold endpoint.
  cbn [well_formed string_keyed forallb fst snd is_str andb].
  rewrite Hw1, Hw2, Hs1, Hs2. by split.
Qed.

Lemma listing_readable (paths : value) :
  well_formed paths = true -> string_keyed paths = true ->
  Forall (fun e => well_formed e = true /\ string_keyed e = true) (listing paths).
Proof.
  intros Hwf Hsk. rewrite Forall_forall. intros e He.
  apply list_elem_of_In in He.
  destruct paths as [x|l|items]; try done.
  cbn [listing] in He. apply in_flat_map in He as ([path methods] & Hitem & He).
  cbn [snd fst] in He. destruct methods as [x|l|ms]; try done.
  apply in_endpoints_in in He as (m & details & Hmember & ->).
  pose proof (well_formed_member _ _ _ Hwf Hitem) as Hwf1.
  pose proof (string_keyed_member _ _ _ Hsk Hitem) as Hsk1.
  apply endpoint_readable.
  - by eapply well_formed_member.
  - by eapply string_keyed_member.
Qed.

Lemma readable_list (l : list value) :
  Forall (fun e => well_formed e = true /\ string_keyed e = true) l ->
  well_formed (VList l) = true /\ string_keyed (VList l) = true.
Proof.
  induction 1 as [|e l [Hw Hs] _ [IHw IHs]]; [done|].
  cbn [well_formed string_keyed forallb] in *. by rewrite Hw, Hs, IHw, IHs.
Qed.

(** X15: for a tree in which every key of every mapping is a string, the
    payloads of the two endpoint tools read back as what the query computed:
    the JSON text of the listing reads back as the list of endpoints, and the
    JSON text of a lookup reads back as the sub-tree found. *)
Theorem endpoint_payloads_read_back (tree : value) :
  well_formed tree = true ->
  string_keyed tree = true ->
  (forall endpoints,
     listEndpoints tree = Ok endpoints ->
     json_loads (json_dumps (VList endpoints)) = Some (VList endpoints))
  /\ (forall spec_name endpoint_path sub,
        getEndpoint spec_name endpoint_path tree = Ok sub ->
        json_loads (json_dumps sub) = Some sub).
Proof.
  intros Hwf Hsk. split.
  - intros es Hlist.
    assert (Hes : Forall (fun e => well_formed e = true /\ string_keyed e = true) es).
    { destruct tree as [[| | |s]|l|d]; try done.
      - unfold listEndpoints in Hlist. simpl in Hlist.
        destruct (str_contains "paths" s); [done|]. by injection Hlist as <-.
      - unfold listEndpoints in Hlist. simpl in Hlist.
        destruct (existsb _ l); [done|]. by injection Hlist as <-.
      - rewrite listEndpoints_cases in Hlist.
        destruct (dict_get d (SStr "paths")) as [paths|] eqn:Hp;
          [|by injection Hlist as <-].
        destruct (listing_shape_ok paths); [|done]. injection Hlist as <-.
        destruct (dict_get_In _ _ _ Hp) as [k' Hin].
        apply listing_readable;
          [by eapply well_formed_member|by eapply string_keyed_member]. }
    destruct (readable_list es Hes). by apply dumps_loads.
  - intros spec_name endpoint_path sub Hget.
    destruct tree as [[| | |s]|l|d]; try done.
    + unfold getEndpoint in Hget. simpl in Hget.
      by destruct (str_contains "paths" s).
    + unfold getEndpoint in Hget. simpl in Hget. by destruct (existsb _ l).
    + rewrite getEndpoint_unfold in Hget.
      destruct (dict_get d (SStr "paths")) as [paths|] eqn:Hp; [|done].
      destruct (dict_get_In _ _ _ Hp) as [k' Hin].
      pose proof (well_formed_member _ _ _ Hwf Hin) as Hwf1.
      pose proof (string_keyed_member _ _ _ Hsk Hin) as Hsk1.
      destruct paths as [[| | |s]|l|pd]; simpl in Hget; try done.
      * destruct endpoint_path as [p|]; simpl in Hget; [|done].
        by destruct (str_contains p s).
      * by destruct (existsb _ l).
      * unfold dict_mem in Hget.
        destruct (dict_get pd (arg_scalar endpoint_path)) as [v|] eqn:Hv; [|done].
        injection Hget as <-.
        destruct (dict_get_In _ _ _ Hv) as [k'' Hin'].
        apply dumps_loads;
          [by eapply well_formed_member|by eapply string_keyed_member].
Qed.

Lemma endpoint_payloads_read_back_witness :
  (forall endpoints,
     listEndpoints doc_endpoint_example = Ok endpoints ->
     json_loads (json_dumps (VList endpoints)) = Some (VList endpoints))
  /\ (forall spec_name endpoint_path sub,
        getEndpoint spec_name endpoint_path doc_endpoint_example = Ok sub ->
        json_loads (json_dumps sub) = Some sub).
Proof.
  apply (endpoint_payloads_read_back doc_endpoint_example); reflexivity.
Defined.


(** ** Payloads are plain ASCII *)

Lemma plain_text_append (a b : string) :
  plain_text (a +:+ b) = plain_text a && plain_text b.
Proof.
  induction a as [|c a IH]; [done|]. simpl. by rewrite IH, andb_assoc.
Qed.

Lemma plain_text_escape_char (c : ascii) : plain_text (json_escape_char c) = true.
Proof. by destruct c as [[] [] [] [] [] [] [] []]. Qed.

Lemma plain_text_json_string (s : string) : plain_text (json_string s) = true.
Proof.
  unfold json_string. cbn [plain_text]. rewrite plain_text_append.
  assert (Hbody : plain_text (json_escape s) = true).
  { induction s as [|c s IH]; [done|]. simpl.
    by rewrite plain_text_append, plain_text_escape_char, IH. }
  by rewrite Hbody.
Qed.

Lemma plain_text_uint (u : Decimal.uint) :
  plain_text (NilEmpty.string_of_uint u) = true.
Proof. induction u; simpl; done. Qed.

Lemma plain_text_str_int (z : Z) : plain_text (str_int z) = true.
Proof.
  unfold str_int.
  destruct z as [|p|p]; simpl Z.to_int; [done| |];
    unfold NilZero.string_of_int, NilZero.string_of_uint;
    pose proof (plain_text_uint (Pos.to_uint p)) as Hp;
    by destruct (Pos.to_uint p).
Qed.

Lemma plain_text_spaces (n : nat) : plain_text (spaces n) = true.
Proof. induction n as [|n IH]; [done|]. exact IH. Qed.

Lemma plain_text_newline_indent (level : nat) :
  plain_text (newline_indent level) = true.
Proof. unfold newline_indent. cbn [plain_text]. apply plain_text_spaces. Qed.

Lemma plain_text_json_key (k : scalar) : plain_text (json_string (json_key k)) = true.
Proof. apply plain_text_json_string. Qed.

Lemma plain_text_json_encode (v : value) :
  forall level, plain_text (json_encode level v) = true.
Proof.
  induction v as [x|l IH|d IH] using value_nested_ind; intros level.
  - destruct x as [|[]|z|s]; try done.
    + apply plain_text_str_int.
    + apply plain_text_json_string.
  - destruct l as [|x l]; [done|].
    apply Forall_cons in IH as [Hx Hl].
    cbn [json_encode]. rewrite !plain_text_append.
    rewrite !plain_text_newline_indent, Hx.
    assert (Hmore : plain_text
                      (encode_more (json_encode (S level))
                         ("," +:+ newline_indent (S level)) l) = true).
    { induction Hl as [|y l Hy Hl IHl]; [done|].
      cbn [encode_more]. rewrite !plain_text_append, Hy, IHl.
      cbn [String.append plain_text]. by rewrite plain_text_newline_indent. }
    by rewrite Hmore.
  - destruct d as [|[k x] d]; [done|].
    apply Forall_cons in IH as [Hx Hd]. simpl in Hx.
    cbn [json_encode]. unfold encode_member at 1. cbn [fst snd].
    rewrite !plain_text_append.
    rewrite !plain_text_newline_indent, Hx, plain_text_json_key.
    assert (Hmore : plain_text
                      (encode_more_members (json_encode (S level))
                         ("," +:+ newline_indent (S level)) d) = true).
    { induction Hd as [|[k' y] d Hy Hd IHd]; [done|]. simpl in Hy.
      cbn [encode_more_members]. unfold encode_member at 1. cbn [fst snd].
      rewrite !plain_text_append, Hy, IHd, plain_text_json_key.
      cbn [String.append plain_text]. by rewrite plain_text_newline_indent. }
    by rewrite Hmore.
Qed.

Lemma plain_text_search_text (hits : list value) : plain_text (search_text hits) = true.
Proof.
  unfold search_text, json_dumps. rewrite plain_text_append, plain_text_json_encode.
  destruct (50 <? length hits)%nat; [|done].
  unfold more_results_note. cbn [plain_text andb].
  rewrite !plain_text_append, plain_text_str_int. done.
Qed.

(** X16: whatever characters the document holds, the payload of a tool call
    that succeeds is made of printable ASCII characters and line breaks
    only. *)
Theorem payloads_are_plain_ascii (requests_get : nat -> string -> http_outcome)
    (yaml_safe_load : string -> yaml_outcome) (name : string)
    (arguments : option (list (string * string))) (st st' : state) (text : string) :
  handle_call_tool requests_get yaml_safe_load name arguments st = (Ok text, st') ->
  plain_text text = true.
Proof.
  intros Hcall.
  destruct (in_dec string_dec name tool_names) as [Hin|Hnot];
    [|by rewrite unlisted_tool_call in Hcall].
  destruct (string_dec name "list_toast_specs") as [->|Hne].
  { injection Hcall as <- _. apply plain_text_json_encode. }
  destruct arguments as [d|].
  - rewrite spec_tool_call in Hcall by done.
    destruct (fetch_yaml_spec requests_get yaml_safe_load (assoc_get d "spec_name") st)
      as [[tree|e] st1]; [|done].
    injection Hcall as Hq _. unfold query_of in Hq.
    destruct (String.eqb name "get_toast_spec");
      [injection Hq as <-; apply plain_text_json_encode|].
    destruct (String.eqb name "get_toast_endpoints").
    { destruct (listEndpoints tree); [|done].
      injection Hq as <-. apply plain_text_json_encode. }
    destruct (String.eqb name "get_toast_endpoint_details").
    { destruct (getEndpoint _ _ tree); [|done].
      injection Hq as <-. apply plain_text_json_encode. }
    injection Hq as <-. apply plain_text_search_text.
  - simpl in Hin.
    by destruct Hin as [<-|[<-|[<-|[<-|[<-|[]]]]]].
Qed.

Lemma payloads_are_plain_ascii_witness :
  plain_text (json_dumps doc_endpoint_example) = true.
Proof.
  apply (payloads_are_plain_ascii (net_serving "paths: {}")
           (yaml_yielding doc_endpoint_example) "get_toast_spec"
           (Some [("spec_name", "reporting")]) initial_state
           (snd (fetch_yaml_spec (net_serving "paths: {}")
                   (yaml_yielding doc_endpoint_example) (Some "reporting")
                   initial_state))).
  reflexivity.
Defined.

(** ** Locators extend the locator of the parent *)

Lemma prefix_trans (a b c : string) :
  String.prefix a b = true -> String.prefix b c = true -> String.prefix a c = true.
Proof.
  intros [s ->]%prefix_split [s' ->]%prefix_split.
  rewrite append_assoc. apply prefix_append.
Qed.

Lemma truthy_prefixed (a s : string) (c : ascii) :
  truthy (SStr (a +:+ String c s)) = true.
Proof. by destruct a. Qed.

Lemma entries_locators (obj : value) :
  forall path,
    truthy path = true ->
    Forall (fun e => String.prefix (str_scalar path) (str_scalar (entry_locator e))
                     = true)
      (entries obj path).
Proof.
  induction obj as [x|l IH|d IH] using value_nested_ind; intros path Hpath.
  - constructor.
  - simpl. generalize 0%nat as i.
    induction IH as [|item l Hitem Hl IHl]; intros i; [constructor|].
    constructor; [apply prefix_append|].
    apply Forall_app. split; [|apply IHl].
    assert (Htruthy : truthy (SStr (list_path path i)) = true)
      by apply truthy_prefixed.
    specialize (Hitem _ Htruthy).
    eapply Forall_impl; [exact Hitem|]. intros e He.
    eapply prefix_trans; [|exact He]. apply prefix_append.
  - simpl.
    induction IH as [|[key v] d Hv Hd IHd]; [constructor|].
    assert (Hcp : dict_path path key
                  = SStr (str_scalar path +:+ "." +:+ str_scalar key))
      by (unfold dict_path; by rewrite Hpath).
    rewrite Hcp.
    constructor; [apply prefix_append|].
    apply Forall_app. split; [|apply IHd].
    assert (Htruthy : truthy (SStr (str_scalar path +:+ "." +:+ str_scalar key))
                      = true) by apply truthy_prefixed.
    simpl in Hv. specialize (Hv _ Htruthy).
    eapply Forall_impl; [exact Hv|]. intros e He.
    eapply prefix_trans; [|exact He]. apply prefix_append.
Qed.

Lemma hit_locator_hit_of (e : entry) : hit_locator (hit_of e) = Some (entry_locator e).
Proof. by destruct e. Qed.

(** X17: inside a sub-tree reached by a locator that is not empty, every hit
    has a locator that starts with the text of that locator: the locators of
    the hits below an entry extend the locator of the entry. *)
Theorem hit_locators_extend_the_parent (search_term : string) (obj : value)
    (path : scalar) :
  truthy path = true ->
  Forall (fun hit =>
            exists loc,
              hit_locator hit = Some loc
              /\ String.prefix (str_scalar path) (str_scalar loc) = true)
    (search_recursive search_term obj path).
Proof.
  intros Hpath. rewrite search_recursive_entries.
  pose proof (entries_locators obj path Hpath) as Hall.
  induction Hall as [|e l He Hl IHl]; [constructor|]. simpl.
  destruct (entry_matches search_term e); [|exact IHl].
  constructor; [|exact IHl].
  exists (entry_locator e). split; [apply hit_locator_hit_of|exact He].
Qed.

Lemma hit_locators_extend_the_parent_witness :
  Forall (fun hit =>
            exists loc,
              hit_locator hit = Some loc
              /\ String.prefix (str_scalar (SStr "paths")) (str_scalar loc) = true)
    (search_recursive "get" doc_endpoint_example (SStr "paths")).
Proof.
  apply (hit_locators_extend_the_parent "get" doc_endpoint_example (SStr "paths")).
  reflexivity.
Defined.

(** ** The shape of a listed endpoint *)

Lemma upper_no_lower (s : string) : has_lower (upper s) = false.
Proof.
  induction s as [|c s IH]; [done|].
  unfold upper in *. simpl. rewrite IH, orb_false_r.
  by destruct c as [[] [] [] [] [] [] [] []].
Qed.

(** X18: every endpoint the listing returns is a record with exactly the
    fields [path], [method], [summary] and [description], in this order, and
    its method has no lower-case ASCII letter. *)
Theorem listed_endpoints_have_four_fields (tree : value) (endpoints : list value) :
  listEndpoints tree = Ok endpoints ->
  Forall (fun e =>
            exists path method summary description,
              e = VDict [(SStr "path", VScalar path);
                         (SStr "method", VStr method);
                         (SStr "summary", summary);
                         (SStr "description", description)]
              /\ has_lower method = false)
    endpoints.
Proof.
  intros Hlist. rewrite Forall_forall. intros e He. apply list_elem_of_In in He.
  destruct tree as [[| | |s]|l|d]; try done.
  - unfold listEndpoints in Hlist. simpl in Hlist.
    destruct (str_contains "paths" s); [done|]. by injection Hlist as <-.
  - unfold listEndpoints in Hlist. simpl in Hlist.
    destruct (existsb _ l); [done|]. by injection Hlist as <-.
  - rewrite listEndpoints_cases in Hlist.
    destruct (dict_get d (SStr "paths")) as [paths|]; [|by injection Hlist as <-].
    destruct (listing_shape_ok paths); [|done]. injection Hlist as <-.
    destruct paths as [x|l|items]; try done.
    cbn [listing] in He. apply in_flat_map in He as ([path methods] & _ & He).
    cbn [snd fst] in He. destruct methods as [x|l|ms]; try done.
    apply in_endpoints_in in He as (m & details & _ & ->).
    exists path, (upper m), (get_or_empty details "summary"),
      (get_or_empty details "description").
    split; [reflexivity|apply upper_no_lower].
Qed.

Lemma listed_endpoints_have_four_fields_witness :
  Forall (fun e =>
            exists path method summary description,
              e = VDict [(SStr "path", VScalar path);
                         (SStr "method", VStr method);
                         (SStr "summary", summary);
                         (SStr "description", description)]
              /\ has_lower method = false)
    [VDict [(SStr "path", VStr "/v2/reports"); (SStr "method", VStr "GET");
            (SStr "summary", VStr "S"); (SStr "description", VStr "")]].
Proof.
  apply (listed_endpoints_have_four_fields doc_endpoint_example).
  reflexivity.
Defined.

(** ** Where cached trees come from *)

Lemma fetch_provenance (requests_get : nat -> string -> http_outcome)
    (yaml_safe_load : string -> yaml_outcome) (spec_name : arg) (st : state) :
  cache_provenance requests_get yaml_safe_load st ->
  cache_provenance requests_get yaml_safe_load
    (snd (fetch_yaml_spec requests_get yaml_safe_load spec_name st)).
Proof.
  intros Hprov.
  pose proof (fetch_yaml_spec_outcome requests_get yaml_safe_load spec_name st)
    as Hout.
  inversion Hout as [k t Hk Hc|Hc Hu|k u r Hk Hc Hu Hn|k u x r Hk Hc Hu Hn Hy
                    |k u x t Hk Hc Hu Hn Hy]; simplify_eq; simpl; try done.
  intros k' tree. simpl.
  destruct (decide (k = k')) as [<-|Hne].
  - rewrite lookup_insert_eq. intros [= <-].
    by exists u, (length (requested st)), x.
  - rewrite lookup_insert_ne by done. apply Hprov.
Qed.

(** X19: in every state the server can reach, each cached tree is what the
    parser yielded for a text that the network served for the catalog URL of
    its own identifier: the cache never holds a tree under the wrong
    identifier, nor one that was not fetched. *)
Theorem cached_trees_were_fetched (requests_get : nat -> string -> http_outcome)
    (yaml_safe_load : string -> yaml_outcome) (st : state) :
  reachable requests_get yaml_safe_load st ->
  cache_provenance requests_get yaml_safe_load st.
Proof.
  induction 1 as [|st name arguments Hreach IH].
  - intros k tree Hk. simpl in Hk. by rewrite lookup_empty in Hk.
  - destruct (handle_call_tool_state requests_get yaml_safe_load name arguments st)
      as [->|[spec_name ->]]; [done|].
    by apply fetch_provenance.
Qed.

Lemma cached_trees_were_fetched_witness :
  cache_provenance (net_serving "paths: {}") (yaml_yielding doc_endpoint_example)
    (snd (handle_call_tool (net_serving "paths: {}")
            (yaml_yielding doc_endpoint_example) "get_toast_endpoints"
            (Some [("spec_name", "orders")]) initial_state)).
Proof.
  apply (cached_trees_were_fetched (net_serving "paths: {}")
           (yaml_yielding doc_endpoint_example)).
  apply reachable_call, reachable_initial.
Defined.
